(** * screenshot-compare: pixel-wise image comparison

    A shallow embedding of [screenshot-compare.go] and the properties
    its specification states about it.

    Go's [float64] is IEEE 754 binary64 with round-to-nearest-even.  It
    is modelled by the Standard Library's [spec_float] at precision 53
    and maximal exponent 1024, whose operations are ordinary functions
    on [positive] and [Z]: every definition below computes, and no
    property of the arithmetic is assumed. *)

From Stdlib Require Import ZArith List String Ascii Bool Lia.
From Stdlib Require Import SpecFloat.
Import ListNotations.

Local Open Scope Z_scope.

(** ** binary64 *)

Module F64.

Definition prec : Z := 53.
Definition emax : Z := 1024.

Definition float64 : Type := spec_float.

Definition add : float64 -> float64 -> float64 := SFadd prec emax.
Definition sub : float64 -> float64 -> float64 := SFsub prec emax.
Definition mul : float64 -> float64 -> float64 := SFmul prec emax.
Definition div : float64 -> float64 -> float64 := SFdiv prec emax.
Definition sqrt : float64 -> float64 := SFsqrt prec emax.

Definition ltb : float64 -> float64 -> bool := SFltb.
Definition leb : float64 -> float64 -> bool := SFleb.
Definition eqb : float64 -> float64 -> bool := SFeqb.

(** [float64(n)] for an integer [n]: the nearest binary64, exact below
    [2^53]. *)
Definition of_Z (n : Z) : float64 := binary_normalize prec emax n 0 false.

(** A decimal constant [n / 10^k] of the source text.  Go converts an
    untyped constant to the nearest [float64]; the correctly rounded
    quotient of two exactly representable integers is that value. *)
Definition lit (n d : Z) : float64 := div (of_Z n) (of_Z d).

Definition zero : float64 := S754_zero false.
Definition one : float64 := Eval vm_compute in of_Z 1.
Definition hundred : float64 := Eval vm_compute in of_Z 100.

Definition is_nan (x : float64) : bool :=
  match x with S754_nan => true | _ => false end.

(** [x] lies in the closed interval [[lo, hi]]; false for NaN. *)
Definition between (lo hi x : float64) : bool := leb lo x && leb x hi.

(** Go's conversion [int(x)]: the fractional part is discarded
    (truncation towards zero).  For NaN and the infinities the result is
    implementation-specific, hence [None]. *)
Definition to_int (x : float64) : option Z :=
  match x with
  | S754_zero _ => Some 0
  | S754_finite s m e =>
      Some (cond_Zopp s (match e with
                         | Zneg k => Z.quot (Zpos m) (2 ^ Zpos k)
                         | _ => Zpos m * 2 ^ e
                         end))
  | _ => None
  end.

(** The largest integer not above a finite [x]. *)
Definition floor (x : float64) : option Z :=
  match x with
  | S754_zero _ => Some 0
  | S754_finite s m e =>
      Some (match e with
            | Zneg k => Z.div (cond_Zopp s (Zpos m)) (2 ^ Zpos k)
            | _ => cond_Zopp s (Zpos m) * 2 ^ e
            end)
  | _ => None
  end.

End F64.

Import F64.

(** ** Machine integers *)

(** [uint32] arithmetic wraps modulo [2^32]. *)
Definition wrap32 (n : Z) : Z := n mod 2 ^ 32.

(** [int] is 64 bits wide and wraps in two's complement. *)
Definition wrap64 (n : Z) : Z := (n + 2 ^ 63) mod 2 ^ 64 - 2 ^ 63.

(** ** Data model *)

(** What [color.Color.RGBA()] returns: four [uint32] channel values,
    alpha-premultiplied. *)
Record rgba : Type := RGBA { cr : Z; cg : Z; cb : Z; ca : Z }.

(** [type img struct]: the decoded image [i], observed through
    [At(x, y).RGBA()], with explicit width, height and format. *)
Record img : Type := Img {
  i : Z -> Z -> rgba;
  w : Z;
  h : Z;
  f : string
}.

(** [time.Duration] counts nanoseconds in an [int64]. *)
Definition Duration : Type := Z.

Definition Nanosecond : Duration := 1.

Record Settings : Type := mkSettings {
  ColorSpace : string;
  Timeout : Duration;
  Wait : Duration;
  BaseImg : string;
  RefImg : string
}.

Record difference : Type := mkDifference {
  score : float64;
  minValue : float64;
  maxValue : float64;
  roundingErrorFactor : float64
}.

(** ** Color model converter *)

Definition WR : float64 := Eval vm_compute in lit 299 1000.
Definition WG : float64 := Eval vm_compute in lit 587 1000.
Definition WB : float64 := Eval vm_compute in lit 114 1000.

(** [toNRGBA]: premultiplied to straight channel values.  The products
    [r*0xFFFF] are formed in [uint32] before the conversion to
    [float64]. *)
Definition toNRGBA (r g b a : Z) : float64 * float64 * float64 * float64 :=
  let d := of_Z a in
  if eqb d zero then (zero, zero, zero, zero)
  else (div (of_Z (wrap32 (r * 65535))) d,
        div (of_Z (wrap32 (g * 65535))) d,
        div (of_Z (wrap32 (b * 65535))) d,
        d).

(** [toNRGBA(c.RGBA())]: the four results of [RGBA()] are passed on as
    [uint32] values. *)
Definition toNRGBA_px (p : rgba) : float64 * float64 * float64 * float64 :=
  toNRGBA (wrap32 (cr p)) (wrap32 (cg p)) (wrap32 (cb p)) (wrap32 (ca p)).

Definition c0492 : float64 := Eval vm_compute in lit 492 1000.
Definition c0877 : float64 := Eval vm_compute in lit 877 1000.

(** [toYUV]: straight RGB to Y'UV with the BT.601 weights; the sum is
    evaluated left to right. *)
Definition toYUV (r g b : float64) : float64 * float64 * float64 :=
  let y_ := add (add (mul WR r) (mul WG g)) (mul WB b) in
  (y_, mul c0492 (sub b y_), mul c0877 (sub r y_)).

(** [math.Pow(x, 2)]: Go's implementation squares the mantissa of [x]
    once, which is the correctly rounded product [x * x]. *)
Definition pow2 (x : float64) : float64 := mul x x.

Definition euclideanDistance (a x b y c z : float64) : float64 :=
  sqrt (add (add (pow2 (sub a x)) (pow2 (sub b y))) (pow2 (sub c z))).

(** ** Pixel distance and image scanner *)

Definition c113510 : float64 := Eval vm_compute in of_Z 113510.
Definition c65535 : float64 := Eval vm_compute in of_Z 65535.
Definition c1_25 : float64 := Eval vm_compute in lit 125 100.

(** The [switch s.ColorSpace] of [compareImages].  It has no default
    case: for any other selector [d] keeps its zero value. *)
Definition pixelDistance (cs : string)
    (r1 g1 b1 r2 g2 b2 : float64) : float64 :=
  if String.eqb cs "RGB" then
    div (euclideanDistance r1 r2 g1 g2 b1 b2) c113510
  else if String.eqb cs "Y'UV" then
    let '(y_1, u1, v1) := toYUV r1 g1 b1 in
    let '(y_2, u2, v2) := toYUV r2 g2 b2 in
    div (euclideanDistance y_1 y_2 u1 u2 v1 v2) c113510
  else zero.

(** A call either returns or panics with the offending value. *)
Inductive outcome (A : Type) : Type :=
| Returned (a : A)
| Panicked (v : float64).
Arguments Returned {A} a.
Arguments Panicked {A} v.

Definition bind {A B : Type} (m : outcome A) (k : A -> outcome B) : outcome B :=
  match m with
  | Returned a => k a
  | Panicked v => Panicked v
  end.

Notation "x <- m ;; k" := (bind m (fun x => k))
  (at level 61, m at next level, right associativity).

(** Left-to-right iteration of a loop body that may panic. *)
Fixpoint foldM {A S : Type} (body : A -> S -> outcome S)
    (l : list A) (acc : S) : outcome S :=
  match l with
  | [] => Returned acc
  | a :: l' => acc' <- body a acc ;; foldM body l' acc'
  end.

Fixpoint zrange_from (lo : Z) (n : nat) : list Z :=
  match n with
  | O => []
  | S k => lo :: zrange_from (lo + 1) k
  end.

(** The values a counter takes in [for v := lo; v < hi; v++]. *)
Definition zrange (lo hi : Z) : list Z := zrange_from lo (Z.to_nat (hi - lo)).

(** The alpha weight of a reference pixel, [a2 / 65535]. *)
Definition alphaOf (a2 : float64) : float64 := div a2 c65535.

(** The body of the inner loop of [compareImages] at [(x, y)], mapping
    the running sum [cul] to its next value. *)
Definition scanPixel (s : Settings) (baseImg refImg : img) (y x : Z)
    (cul : float64) : outcome float64 :=
  let '(r1, g1, b1, _) := toNRGBA_px (i baseImg x y) in
  let '(r2, g2, b2, a2) := toNRGBA_px (i refImg x y) in
  let d := pixelDistance (ColorSpace s) r1 g1 b1 r2 g2 b2 in
  let alpha := alphaOf a2 in
  if ltb alpha zero || ltb one alpha then Panicked alpha
  else Returned (add cul (mul d alpha)).

Definition scanRow (s : Settings) (baseImg refImg : img) (y : Z)
    (cul : float64) : outcome float64 :=
  foldM (scanPixel s baseImg refImg y) (zrange 0 (w baseImg)) cul.

(** The two nested loops: the sum accumulated over rows
    [yOffset <= y < yOffset + yCount]. *)
Definition scan (s : Settings) (baseImg refImg : img)
    (yOffset yCount : Z) : outcome float64 :=
  foldM (scanRow s baseImg refImg)
        (zrange yOffset (wrap64 (yOffset + yCount))) zero.

(** The last three statements of [compareImages]: mean, correction
    factor, upper clamp. *)
Definition aggregate (cul : float64) (count : Z) (factor : float64) : float64 :=
  let sc := mul (div cul (of_Z count)) factor in
  if ltb one sc then one else sc.

(** [compareImages].  Its [error] result is [nil] on every return and
    is left out. *)
Definition compareImages (s : Settings) (baseImg refImg : img)
    (yOffset yCount : Z) : outcome difference :=
  cul <- scan s baseImg refImg yOffset yCount ;;
  Returned {| score := aggregate cul (wrap64 (yCount * w baseImg)) c1_25;
              minValue := zero;
              maxValue := one;
              roundingErrorFactor := c1_25 |}.

(** ** Decoding and the exported comparison *)

(** What [image.Decode] yields for a file: the pixel accessor, the
    [Max] corner of [Bounds()] and the format name. *)
Record decoded : Type := Decoded {
  d_at : Z -> Z -> rgba;
  d_maxX : Z;
  d_maxY : Z;
  d_format : string
}.

(** The file system together with the registered decoders: a path
    either opens and decodes, or fails. *)
Definition files : Type := string -> option decoded.

Inductive error : Type :=
| ErrDecode (path : string)
| ErrDimensions (bw bh rw rh : Z).

Definition readImageMetadata (fs : files) (filepath : string) : error + img :=
  match fs filepath with
  | None => inl (ErrDecode filepath)
  | Some dc => inr {| i := d_at dc; w := d_maxX dc; h := d_maxY dc;
                      f := d_format dc |}
  end.

Definition CompareImages (fs : files) (s : Settings)
    : outcome (float64 * option error) :=
  match readImageMetadata fs (BaseImg s) with
  | inl err => Returned (one, Some err)
  | inr baseImg =>
      match readImageMetadata fs (RefImg s) with
      | inl err => Returned (one, Some err)
      | inr refImg =>
          if negb (w baseImg =? w refImg) || negb (h baseImg =? h refImg) then
            Returned (one, Some (ErrDimensions (w baseImg) (h baseImg)
                                               (w refImg) (h refImg)))
          else
            diff <- compareImages s baseImg refImg 0 (h baseImg) ;;
            Returned (score diff, None)
      end
  end.

(** The presentation transform of [main]. *)
Definition percentOf (diff : difference) : float64 :=
  div (sub (mul hundred (score diff)) (minValue diff))
      (sub (maxValue diff) (minValue diff)).

(** ** Duration specifiers *)














(** ** The driver: [main] after argument parsing

    [main] starts two goroutines that share the one-slot channel
    [timeout] and then receives from it.  The timer goroutine sleeps
    for [s.Timeout] and sends [false] only when that duration is
    positive.  The worker goroutine decodes both files, checks the
    dimensions, scans, stores the result in the shared variable [diff]
    and sends [true].  Sleeping is not timed here: a timer that will
    send may do so at any moment. *)

Inductive timerState : Type := TSleeping | TFinished.

Inductive workerState : Type := WRunning | WScanned | WSent.

(** How a run ends: with the result, by the timer, by the dimension
    check, or by a fatal error ([log.Fatal], a panic). *)
Inductive verdict : Type := Completed | TimedOut | Rejected | Failed.

Record process : Type := mkProcess {
  p_timer : timerState;
  p_worker : workerState;
  p_chan : list bool;            (* buffered values, oldest first *)
  p_diff : difference;           (* [var diff difference] of [main] *)
  p_exit : option (verdict * option Z)
                                 (* set once the process has exited; the
                                    exit code is [None] where Go leaves
                                    the conversion to the platform *)
}.

Definition chanCap : nat := 1.

Definition diff0 : difference :=
  {| score := zero; minValue := zero; maxValue := zero;
     roundingErrorFactor := zero |}.

Definition initial : process :=
  {| p_timer := TSleeping; p_worker := WRunning; p_chan := [];
     p_diff := diff0; p_exit := None |}.

(** What the worker goroutine does up to its send: it either ends the
    process itself ([log.Fatal] exits with 1, the dimension check with
    101, a panic with 2), or computes the difference. *)
Definition workerVerdict (fs : files) (s : Settings)
    : (verdict * Z) + difference :=
  match readImageMetadata fs (BaseImg s) with
  | inl _ => inl (Failed, 1)
  | inr baseImg =>
      match readImageMetadata fs (RefImg s) with
      | inl _ => inl (Failed, 1)
      | inr refImg =>
          if negb (w baseImg =? w refImg) || negb (h baseImg =? h refImg)
          then inl (Rejected, 101)
          else match compareImages s baseImg refImg 0 (h baseImg) with
               | Returned d => inr d
               | Panicked _ => inl (Failed, 2)
               end
      end
  end.

(** [os.Exit(int(percent))]. *)
Definition exitCodeOf (diff : difference) : option Z := to_int (percentOf diff).

Definition exited (p : process) (v : verdict) (c : option Z) : process :=
  {| p_timer := p_timer p; p_worker := p_worker p; p_chan := p_chan p;
     p_diff := p_diff p; p_exit := Some (v, c) |}.

Inductive step (fs : files) (s : Settings) : process -> process -> Prop :=
| step_timer_send p :
    p_exit p = None -> p_timer p = TSleeping -> 0 < Timeout s ->
    (List.length (p_chan p) < chanCap)%nat ->
    step fs s p {| p_timer := TFinished; p_worker := p_worker p;
                   p_chan := p_chan p ++ [false];
                   p_diff := p_diff p; p_exit := None |}
| step_timer_silent p :
    p_exit p = None -> p_timer p = TSleeping -> Timeout s <= 0 ->
    step fs s p {| p_timer := TFinished; p_worker := p_worker p;
                   p_chan := p_chan p;
                   p_diff := p_diff p; p_exit := None |}
| step_worker_exit p v c :
    p_exit p = None -> p_worker p = WRunning ->
    workerVerdict fs s = inl (v, c) ->
    step fs s p (exited p v (Some c))
| step_worker_scan p d :
    p_exit p = None -> p_worker p = WRunning ->
    workerVerdict fs s = inr d ->
    step fs s p {| p_timer := p_timer p; p_worker := WScanned;
                   p_chan := p_chan p;
                   p_diff := d; p_exit := None |}
| step_worker_send p :
    p_exit p = None -> p_worker p = WScanned ->
    (List.length (p_chan p) < chanCap)%nat ->
    step fs s p {| p_timer := p_timer p; p_worker := WSent;
                   p_chan := p_chan p ++ [true];
                   p_diff := p_diff p; p_exit := None |}
| step_main_result p rest :
    p_exit p = None -> p_chan p = true :: rest ->
    step fs s p (exited {| p_timer := p_timer p; p_worker := p_worker p;
                           p_chan := rest; p_diff := p_diff p;
                           p_exit := None |}
                        Completed (exitCodeOf (p_diff p)))
| step_main_timeout p rest :
    p_exit p = None -> p_chan p = false :: rest ->
    step fs s p (exited {| p_timer := p_timer p; p_worker := p_worker p;
                           p_chan := rest; p_diff := p_diff p;
                           p_exit := None |}
                        TimedOut (Some 102)).

(** The states [main] can be in. *)
Inductive reachable (fs : files) (s : Settings) : process -> Prop :=
| reach_initial : reachable fs s initial
| reach_step p q : reachable fs s p -> step fs s p q -> reachable fs s q.

(** ** Notions of the specification *)




Definition triple : Type := (float64 * float64 * float64)%type.

(** Euclidean distance over three components. *)
Definition euclid3 (p q : triple) : float64 :=
  let '(a, b, c) := p in
  let '(x, y, z) := q in
  sqrt (add (add (mul (sub a x) (sub a x)) (mul (sub b y) (sub b y)))
            (mul (sub c z) (sub c z))).

(** BT.601: Y' = 0.299 R + 0.587 G + 0.114 B, U = 0.492 (B - Y'),
    V = 0.877 (R - Y'). *)
Definition bt601 (rgb : triple) : triple :=
  let '(r, g, b) := rgb in
  let y := add (add (mul (lit 299 1000) r) (mul (lit 587 1000) g))
               (mul (lit 114 1000) b) in
  (y, mul (lit 492 1000) (sub b y), mul (lit 877 1000) (sub r y)).







(** ** Sample inputs *)

Definition solid (p : rgba) (width height : Z) : img :=
  {| i := fun _ _ => p; w := width; h := height; f := "png" |}.

Definition solidFile (p : rgba) (width height : Z) : decoded :=
  {| d_at := fun _ _ => p; d_maxX := width; d_maxY := height;
     d_format := "png" |}.

Definition black : rgba := RGBA 0 0 0 65535.
Definition white : rgba := RGBA 65535 65535 65535 65535.
Definition clear : rgba := RGBA 0 0 0 0.

Definition settingsFor (cs : string) (timeout : Duration) : Settings :=
  {| ColorSpace := cs; Timeout := timeout; Wait := 0;
     BaseImg := "base.png"; RefImg := "ref.png" |}.

(** A file system holding the two named images. *)
Definition twoFiles (b r : decoded) : files :=
  fun path =>
    if (path =? "base.png")%string then Some b
    else if (path =? "ref.png")%string then Some r
    else None.

(** ** Notions used in the proofs *)

Local Abbreviation bra := (binary_round_aux prec emax).
Local Abbreviation fx := (fexp prec emax).

(** A shift record that has lost no bit so far. *)
Definition exact_rec (mrs : shr_record) : Prop :=
  shr_r mrs = false /\ shr_s mrs = false.

(** What [binary_round_aux] builds from the rounded mantissa and its
    exponent. *)
Definition result_of (sx : bool) (m3 e3 : Z) : float64 :=
  match m3 with
  | Z0 => S754_zero sx
  | Zpos m => if e3 <=? emax - prec then S754_finite sx m e3 else S754_infinity sx
  | Zneg _ => S754_nan
  end.

(** A result of sign [sx] that is not NaN and, when finite, is in
    canonical form. *)
Inductive shape (sx : bool) : float64 -> Prop :=
| shape_zero : shape sx (S754_zero sx)
| shape_fin m e : bounded prec emax m e = true -> shape sx (S754_finite sx m e)
| shape_inf : shape sx (S754_infinity sx).

(** The order of canonical magnitudes: [m * 2^e <= M * 2^E]. *)
Definition le_mag (m : positive) (e : Z) (M : positive) (E : Z) : Prop :=
  e < E \/ (e = E /\ Zpos m <= Zpos M).

(** [x] is a zero or a canonical finite number with [|x| <= M * 2^E]. *)
Inductive ubound (M : positive) (E : Z) : float64 -> Prop :=
| ub_zero s : ubound M E (S754_zero s)
| ub_fin s m e :
    bounded prec emax m e = true -> le_mag m e M E ->
    ubound M E (S754_finite s m e).

(** [ub2 a x]: [x] is a zero or a canonical finite number with
    [|x| <= 2^a]. *)
Definition ub2 (a : Z) (x : float64) : Prop :=
  ubound 4503599627370496 (a - 52) x.

(** Sign bit clear and not NaN. *)
Definition nonneg (x : float64) : Prop :=
  match x with
  | S754_zero false | S754_finite false _ _ | S754_infinity false => True
  | _ => False
  end.

Definition sign_of (x : float64) : bool :=
  match x with
  | S754_zero s | S754_infinity s | S754_finite s _ _ => s
  | S754_nan => false
  end.

(** * Properties *)

(** ** Rounding to binary64 *)

Lemma fexp_eq e : fexp prec emax e = Z.max (e - 53) (-1074).
Proof. reflexivity. Qed.

Lemma digits2_size p : digits2_pos p = Pos.size p.
Proof. induction p; simpl; congruence. Qed.

Lemma Zdigits2_log2 p : Zdigits2 (Zpos p) = Z.log2 (Zpos p) + 1.
Proof.
  simpl. rewrite digits2_size.
  destruct p; simpl; try reflexivity; rewrite Pos.add_1_r; reflexivity.
Qed.

Lemma Zdigits2_nonneg m : 0 <= m -> 0 <= Zdigits2 m.
Proof. destruct m; simpl; lia. Qed.

Lemma Zdigits2_pos m : 0 < m -> 0 < Zdigits2 m.
Proof. destruct m; simpl; lia. Qed.

Lemma Zdigits2_bounds m :
  0 < m -> 2 ^ (Zdigits2 m - 1) <= m < 2 ^ Zdigits2 m.
Proof.
  intros H. destruct m as [|p|p]; try lia.
  rewrite Zdigits2_log2.
  replace (Z.log2 (Zpos p) + 1 - 1) with (Z.log2 (Zpos p)) by lia.
  replace (Z.log2 (Zpos p) + 1) with (Z.succ (Z.log2 (Zpos p))) by lia.
  apply Z.log2_spec. lia.
Qed.

Lemma Zdigits2_unique m d :
  2 ^ (d - 1) <= m < 2 ^ d -> 0 < d -> Zdigits2 m = d.
Proof.
  intros H Hd.
  assert (0 < m) by (assert (0 < 2 ^ (d - 1)) by (apply Z.pow_pos_nonneg; lia); lia).
  destruct m as [|p|p]; try lia.
  rewrite Zdigits2_log2.
  rewrite (Z.log2_unique (Zpos p) (d - 1)); try lia.
  replace (Z.succ (d - 1)) with d by lia. exact H.
Qed.

Lemma Zdigits2_le a b : 0 <= a <= b -> Zdigits2 a <= Zdigits2 b.
Proof.
  intros [Ha Hab].
  destruct a as [|p|p]; try lia.
  - apply Zdigits2_nonneg. lia.
  - destruct b as [|q|q]; try lia.
    rewrite !Zdigits2_log2.
    assert (Z.log2 (Zpos p) <= Z.log2 (Zpos q)) by (apply Z.log2_le_mono; lia).
    lia.
Qed.

Lemma Zdigits2_lt_pow2 m d : 0 <= m < 2 ^ d -> 0 <= d -> Zdigits2 m <= d.
Proof.
  intros [H0 H] Hd.
  destruct (Z.eq_dec m 0) as [->|Hm]; [simpl; lia|].
  destruct (Z_le_gt_dec (Zdigits2 m) d) as [|Hgt]; [assumption|exfalso].
  assert (Hb := Zdigits2_bounds m ltac:(lia)).
  assert (2 ^ d <= 2 ^ (Zdigits2 m - 1)) by (apply Z.pow_le_mono_r; lia).
  lia.
Qed.

Lemma Zdigits2_ge_pow2 m d : 2 ^ d <= m -> 0 <= d -> d + 1 <= Zdigits2 m.
Proof.
  intros H Hd.
  assert (0 < 2 ^ d) by (apply Z.pow_pos_nonneg; lia).
  assert (Hb := Zdigits2_bounds m ltac:(lia)).
  destruct (Z_le_gt_dec (d + 1) (Zdigits2 m)) as [|Hgt]; [assumption|exfalso].
  assert (2 ^ Zdigits2 m <= 2 ^ d) by (apply Z.pow_le_mono_r; lia).
  lia.
Qed.

Lemma Zdigits2_mul_pow2 m j :
  0 < m -> 0 <= j -> Zdigits2 (m * 2 ^ j) = Zdigits2 m + j.
Proof.
  intros Hm Hj.
  assert (Hb := Zdigits2_bounds m Hm).
  assert (Hd := Zdigits2_pos m Hm).
  apply Zdigits2_unique; [|lia].
  replace (Zdigits2 m + j - 1) with (Zdigits2 m - 1 + j) by lia.
  rewrite !Z.pow_add_r by lia.
  assert (0 < 2 ^ j) by (apply Z.pow_pos_nonneg; lia).
  nia.
Qed.

Lemma Zdigits2_div_pow2 m k :
  0 < m -> 0 <= k < Zdigits2 m -> Zdigits2 (m / 2 ^ k) = Zdigits2 m - k.
Proof.
  intros Hm Hk.
  assert (Hb := Zdigits2_bounds m Hm).
  assert (0 < 2 ^ k) by (apply Z.pow_pos_nonneg; lia).
  apply Zdigits2_unique; [|lia].
  replace (Zdigits2 m - 1) with ((Zdigits2 m - k - 1) + k) in Hb by lia.
  replace (Zdigits2 m) with ((Zdigits2 m - k) + k) in Hb at 2 by lia.
  rewrite !Z.pow_add_r in Hb by lia.
  split.
  - apply Z.div_le_lower_bound; lia.
  - apply Z.div_lt_upper_bound; lia.
Qed.

Lemma div_pow2_zero m k : 0 <= m -> Zdigits2 m <= k -> m / 2 ^ k = 0.
Proof.
  intros Hm Hk.
  destruct (Z.eq_dec m 0) as [->|Hne]; [apply Zdiv_0_l|].
  assert (Hb := Zdigits2_bounds m ltac:(lia)).
  assert (2 ^ Zdigits2 m <= 2 ^ k) by (apply Z.pow_le_mono_r; lia).
  apply Z.div_small. lia.
Qed.

(** shr *)

Lemma shr_1_spec mrs :
  0 <= shr_m mrs ->
  shr_m (shr_1 mrs) = shr_m mrs / 2 /\
  (exact_rec mrs -> shr_m mrs mod 2 = 0 -> exact_rec (shr_1 mrs)).
Proof.
  destruct mrs as [m r s]. simpl. intros Hm.
  destruct m as [|p|p]; try lia.
  - split; [reflexivity|]. intros [Hr Hs] _. simpl in *. subst. split; reflexivity.
  - destruct p as [p|p|]; simpl.
    + split.
      * rewrite Pos2Z.inj_xI. apply Z.div_unique with 1; lia.
      * intros _ H. rewrite Pos2Z.inj_xI in H.
        rewrite Z.add_comm, Z.mul_comm, Z.mod_add in H by lia. discriminate.
    + split.
      * rewrite Pos2Z.inj_xO. apply Z.div_unique with 0; lia.
      * intros [Hr Hs] _. simpl in *. subst. split; reflexivity.
    + split; [reflexivity|]. intros _ H. discriminate.
Qed.

Lemma iter_shr_spec p : forall mrs,
  0 <= shr_m mrs ->
  shr_m (iter_pos shr_1 p mrs) = shr_m mrs / 2 ^ Zpos p /\
  (exact_rec mrs -> shr_m mrs mod 2 ^ Zpos p = 0 ->
   exact_rec (iter_pos shr_1 p mrs)).
Proof.
  assert (Hstep : forall a b (f g : shr_record -> shr_record),
    0 < a -> 0 < b ->
    (forall mrs, 0 <= shr_m mrs ->
       shr_m (f mrs) = shr_m mrs / 2 ^ a /\
       (exact_rec mrs -> shr_m mrs mod 2 ^ a = 0 -> exact_rec (f mrs))) ->
    (forall mrs, 0 <= shr_m mrs ->
       shr_m (g mrs) = shr_m mrs / 2 ^ b /\
       (exact_rec mrs -> shr_m mrs mod 2 ^ b = 0 -> exact_rec (g mrs))) ->
    forall mrs, 0 <= shr_m mrs ->
       shr_m (g (f mrs)) = shr_m mrs / 2 ^ (a + b) /\
       (exact_rec mrs -> shr_m mrs mod 2 ^ (a + b) = 0 -> exact_rec (g (f mrs)))).
  { intros a b f0 g Ha Hb Hf Hg mrs Hm.
    destruct (Hf mrs Hm) as [Hf1 Hf2].
    assert (Hpa : 0 < 2 ^ a) by (apply Z.pow_pos_nonneg; lia).
    assert (Hpb : 0 < 2 ^ b) by (apply Z.pow_pos_nonneg; lia).
    assert (Hm' : 0 <= shr_m (f0 mrs)) by (rewrite Hf1; apply Z.div_pos; lia).
    destruct (Hg (f0 mrs) Hm') as [Hg1 Hg2].
    rewrite Z.pow_add_r by lia.
    split.
    - rewrite Hg1, Hf1. apply Z.div_div; lia.
    - intros He Hmod.
      apply Z.mod_divide in Hmod; [|nia].
      destruct Hmod as [c Hc].
      apply Hg2.
      + apply Hf2; [exact He|].
        apply Z.mod_divide; [lia|]. exists (c * 2 ^ b). lia.
      + rewrite Hf1, Hc.
        replace (c * (2 ^ a * 2 ^ b)) with (c * 2 ^ b * 2 ^ a) by ring.
        rewrite Z.div_mul by lia.
        apply Z.mod_mul. lia. }
  induction p as [p IH|p IH|]; intros mrs Hm.
  - simpl iter_pos.
    replace (Zpos p~1) with (1 + (Zpos p + Zpos p)) by lia.
    apply (Hstep 1 (Zpos p + Zpos p) shr_1
             (fun x => iter_pos shr_1 p (iter_pos shr_1 p x))); try lia.
    + intros m0 H0. rewrite Z.pow_1_r. apply shr_1_spec; assumption.
    + apply (Hstep (Zpos p) (Zpos p)); try lia; assumption.
  - simpl iter_pos.
    replace (Zpos p~0) with (Zpos p + Zpos p) by lia.
    apply (Hstep (Zpos p) (Zpos p)); try lia; assumption.
  - simpl iter_pos. rewrite Z.pow_1_r. apply shr_1_spec; assumption.
Qed.

Lemma shr_record_of_loc_m m l : shr_m (shr_record_of_loc m l) = m.
Proof. destruct l as [|[]]; reflexivity. Qed.

Lemma exact_loc mrs : exact_rec mrs -> loc_of_shr_record mrs = loc_Exact.
Proof. destruct mrs as [m r s]; intros [H1 H2]; simpl in *; subst; reflexivity. Qed.

Lemma shr_spec m l e k :
  0 <= m -> 0 <= k ->
  fst (shr (shr_record_of_loc m l) e k) = fst (shr (shr_record_of_loc m l) e k) /\
  snd (shr (shr_record_of_loc m l) e k) = e + k /\
  shr_m (fst (shr (shr_record_of_loc m l) e k)) = m / 2 ^ k /\
  (l = loc_Exact -> m mod 2 ^ k = 0 ->
   loc_of_shr_record (fst (shr (shr_record_of_loc m l) e k)) = loc_Exact).
Proof.
  intros Hm Hk. split; [reflexivity|].
  unfold shr. destruct k as [|p|p]; try lia; simpl fst; simpl snd.
  - rewrite shr_record_of_loc_m. split; [lia|].
    split; [rewrite Z.pow_0_r, Z.div_1_r; reflexivity|].
    intros -> _. reflexivity.
  - destruct (iter_shr_spec p (shr_record_of_loc m l)) as [H1 H2].
    { rewrite shr_record_of_loc_m; exact Hm. }
    rewrite shr_record_of_loc_m in *. split; [reflexivity|]. split; [exact H1|].
    intros -> Hmod. apply exact_loc. apply H2; [split; reflexivity|exact Hmod].
Qed.

Lemma round_nearest_even_spec m l :
  m <= round_nearest_even m l <= m + 1 /\
  (l = loc_Exact -> round_nearest_even m l = m).
Proof.
  destruct l as [|[]]; simpl; try destruct (Z.even m);
    split; try lia; try reflexivity; intros; discriminate.
Qed.

Lemma bra_shape sx mx ex lx :
  0 <= mx -> ex <= fx (Zdigits2 mx + ex) ->
  exists m2 m3 e3,
    mx / 2 ^ (fx (Zdigits2 mx + ex) - ex) <= m2
      <= mx / 2 ^ (fx (Zdigits2 mx + ex) - ex) + 1 /\
    (lx = loc_Exact -> mx mod 2 ^ (fx (Zdigits2 mx + ex) - ex) = 0 ->
     m2 = mx / 2 ^ (fx (Zdigits2 mx + ex) - ex)) /\
    ((m3 = m2 /\ e3 = fx (Zdigits2 mx + ex) /\ m2 < 2 ^ 53) \/
     (m2 = 2 ^ 53 /\ m3 = 2 ^ 52 /\ e3 = fx (Zdigits2 mx + ex) + 1)) /\
    (m3 = 0 \/ fx (Zdigits2 m3 + e3) = e3) /\
    bra sx mx ex lx = result_of sx m3 e3.
Proof.
  intros Hm Hk.
  set (e1 := fx (Zdigits2 mx + ex)) in *.
  set (k := e1 - ex).
  assert (Hk0 : 0 <= k) by (unfold k; lia).
  assert (He1 : e1 = Z.max (Zdigits2 mx + ex - 53) (-1074)) by reflexivity.
  assert (Hpk : 0 < 2 ^ k) by (apply Z.pow_pos_nonneg; lia).
  set (m1 := mx / 2 ^ k).
  assert (Hm1 : 0 <= m1) by (apply Z.div_pos; lia).
  assert (Hd1 : m1 = 0 \/ (0 < m1 /\ Zdigits2 m1 = Zdigits2 mx - k)).
  { destruct (Z_lt_le_dec k (Zdigits2 mx)) as [Hlt|Hge].
    - right. assert (0 < mx) by (destruct mx; simpl in *; lia).
      assert (Hd := Zdigits2_div_pow2 mx k ltac:(lia) ltac:(lia)).
      fold m1 in Hd. split; [|exact Hd].
      destruct (Z.eq_dec m1 0) as [E|]; [|lia].
      rewrite E in Hd. simpl in Hd. lia.
    - left. apply div_pow2_zero; lia. }
  assert (Hm1lt : m1 < 2 ^ 53).
  { destruct Hd1 as [->|[Hpos Hd]]; [lia|].
    assert (Hb := Zdigits2_bounds m1 Hpos).
    assert (2 ^ Zdigits2 m1 <= 2 ^ 53) by (apply Z.pow_le_mono_r; lia).
    lia. }
  destruct (shr_spec mx lx ex k Hm Hk0) as (_ & Hs2 & Hs3 & Hs4).
  unfold binary_round_aux, shr_fexp.
  fold e1. fold k.
  destruct (shr (shr_record_of_loc mx lx) ex k) as [mrs' e'] eqn:Hshr.
  simpl fst in *; simpl snd in *.
  fold m1 in Hs3.
  destruct (round_nearest_even_spec (shr_m mrs') (loc_of_shr_record mrs'))
    as [Hr1 Hr2].
  set (m2 := round_nearest_even (shr_m mrs') (loc_of_shr_record mrs')) in *.
  rewrite Hs3 in Hr1.
  assert (He' : e' = e1) by (unfold k in Hs2; lia).
  clear Hs2. subst e'.
  assert (Hex : lx = loc_Exact -> mx mod 2 ^ k = 0 -> m2 = m1).
  { intros H1 H2. rewrite <- Hs3. apply Hr2. apply Hs4; assumption. }
  destruct (Z_lt_le_dec m2 (2 ^ 53)) as [Hlt|Hge].
  - (* no carry *)
    exists m2, m2, e1.
    assert (Hdm2 : Zdigits2 m2 <= 53) by (apply Zdigits2_lt_pow2; lia).
    assert (Hcan : m2 = 0 \/ fx (Zdigits2 m2 + e1) = e1).
    { destruct (Z.eq_dec m2 0) as [|Hne]; [left; assumption|right].
      rewrite fexp_eq.
      destruct (Z.eq_dec e1 (-1074)) as [E|E]; [lia|].
      assert (e1 = Zdigits2 mx + ex - 53) by lia.
      destruct Hd1 as [H0|[Hpos Hd]].
      + exfalso. unfold m1 in H0.
        assert (0 < mx) by (destruct mx; simpl in *; lia).
        assert (Hb := Zdigits2_bounds mx ltac:(lia)).
        assert (Hdk : k <= Zdigits2 mx - 1) by (unfold k; lia).
        assert (2 ^ k <= 2 ^ (Zdigits2 mx - 1)) by (apply Z.pow_le_mono_r; lia).
        assert (1 <= mx / 2 ^ k) by (apply Z.div_le_lower_bound; lia).
        lia.
      + assert (Zdigits2 m1 = 53) by (unfold k in Hd; lia).
        assert (Zdigits2 m1 <= Zdigits2 m2) by (apply Zdigits2_le; lia).
        lia. }
    repeat split; try assumption; try lia.
    assert (Hk2 : fx (Zdigits2 m2 + e1) - e1 <= 0) by (rewrite fexp_eq; lia).
    unfold shr.
    destruct (fx (Zdigits2 m2 + e1) - e1) as [|p|p] eqn:Ek; try lia;
      rewrite shr_record_of_loc_m; reflexivity.
  - (* carry: m2 = 2^53 *)
    assert (m2 = 2 ^ 53) by lia.
    exists m2, (2 ^ 52), (e1 + 1).
    split; [assumption|]. split; [assumption|].
    split; [right; repeat split; assumption|].
    split; [right; rewrite fexp_eq; change (Zdigits2 (2 ^ 52)) with 53; lia|].
    rewrite H.
    replace (fx (Zdigits2 (2 ^ 53) + e1) - e1) with 1
      by (rewrite fexp_eq; change (Zdigits2 (2 ^ 53)) with 54; lia).
    reflexivity.
Qed.

Lemma bounded_iff m e :
  bounded prec emax m e = true <->
  fx (Zdigits2 (Zpos m) + e) = e /\ e <= 971.
Proof.
  unfold bounded, canonical_mantissa. rewrite andb_true_iff, Z.eqb_eq, Z.leb_le.
  simpl Zdigits2. change (emax - prec) with 971. tauto.
Qed.

Lemma bounded_facts m e :
  bounded prec emax m e = true ->
  -1074 <= e <= 971 /\ Zdigits2 (Zpos m) <= 53 /\ Zpos m < 2 ^ 53 /\
  (e = -1074 \/ (Zdigits2 (Zpos m) = 53 /\ 2 ^ 52 <= Zpos m)).
Proof.
  intros H. apply bounded_iff in H. destruct H as [H1 H2].
  rewrite fexp_eq in H1.
  assert (Hb := Zdigits2_bounds (Zpos m) ltac:(lia)).
  assert (Hd : Zdigits2 (Zpos m) <= 53) by lia.
  assert (2 ^ Zdigits2 (Zpos m) <= 2 ^ 53) by (apply Z.pow_le_mono_r; lia).
  repeat split; try lia.
  destruct (Z.eq_dec e (-1074)); [left; assumption|right].
  assert (E : Zdigits2 (Zpos m) = 53) by lia.
  rewrite E in Hb. split; [assumption|]. change (53 - 1) with 52 in Hb. lia.
Qed.

Lemma result_of_shape sx m3 e3 :
  0 <= m3 -> (m3 = 0 \/ fx (Zdigits2 m3 + e3) = e3) ->
  shape sx (result_of sx m3 e3).
Proof.
  intros H0 Hc. destruct m3 as [|m|m]; simpl; try lia.
  - constructor.
  - destruct (Z.leb_spec e3 971).
    + constructor. apply bounded_iff. destruct Hc as [|Hc]; [discriminate|].
      split; [exact Hc|]. lia.
    + constructor.
Qed.

Lemma bra_valid_sign sx mx ex lx :
  0 <= mx -> ex <= fx (Zdigits2 mx + ex) ->
  shape sx (bra sx mx ex lx).
Proof.
  intros Hm Hk.
  destruct (bra_shape sx mx ex lx Hm Hk) as (m2 & m3 & e3 & H1 & _ & H3 & H4 & ->).
  apply result_of_shape; [|exact H4].
  assert (0 <= mx / 2 ^ (fx (Zdigits2 mx + ex) - ex)).
  { apply Z.div_pos; [lia|]. apply Z.pow_pos_nonneg; lia. }
  destruct H3 as [(-> & _ & _)|(_ & -> & _)]; lia.
Qed.

Lemma bra_nonzero sx mx ex lx :
  0 <= mx -> ex <= fx (Zdigits2 mx + ex) ->
  fx (Zdigits2 mx + ex) - ex < Zdigits2 mx ->
  bra sx mx ex lx <> S754_zero sx.
Proof.
  intros Hm Hk Hd.
  destruct (bra_shape sx mx ex lx Hm Hk) as (m2 & m3 & e3 & H1 & _ & H3 & H4 & ->).
  assert (0 < mx) by (destruct mx; simpl in *; lia).
  assert (Hp : 0 < 2 ^ (fx (Zdigits2 mx + ex) - ex)) by (apply Z.pow_pos_nonneg; lia).
  assert (Hb := Zdigits2_bounds mx ltac:(lia)).
  assert (2 ^ (fx (Zdigits2 mx + ex) - ex) <= 2 ^ (Zdigits2 mx - 1))
    by (apply Z.pow_le_mono_r; lia).
  assert (1 <= mx / 2 ^ (fx (Zdigits2 mx + ex) - ex))
    by (apply Z.div_le_lower_bound; lia).
  assert (0 < m3) by (destruct H3 as [(-> & _ & _)|(_ & -> & _)]; lia).
  destruct m3; simpl; try lia.
  destruct (e3 <=? 971); discriminate.
Qed.

Lemma fx_mono a b : a <= b -> fx a <= fx b.
Proof. rewrite !fexp_eq. lia. Qed.

Lemma bra_upper sx mx ex lx M E :
  0 <= mx -> ex <= fx (Zdigits2 mx + ex) ->
  bounded prec emax M E = true ->
  ex <= E ->
  mx <= Zpos M * 2 ^ (E - ex) ->
  (lx <> loc_Exact -> mx < Zpos M * 2 ^ (E - ex)) ->
  ubound M E (bra sx mx ex lx).
Proof.
  intros Hm Hk HF HeE Hle Hlt.
  destruct (bra_shape sx mx ex lx Hm Hk) as (m2 & m3 & e3 & H1 & H2 & H3 & H4 & ->).
  destruct (bounded_facts M E HF) as (HE & HdM & HM & HMn).
  apply bounded_iff in HF. destruct HF as [HFc _].
  set (e1 := fx (Zdigits2 mx + ex)) in *.
  set (k := e1 - ex) in *.
  assert (Hk0 : 0 <= k) by (unfold k; lia).
  assert (Hpk : 0 < 2 ^ k) by (apply Z.pow_pos_nonneg; lia).
  assert (He1E : e1 <= E).
  { destruct (Z.eq_dec mx 0) as [E0|Hne].
    - unfold e1. rewrite E0. simpl Zdigits2. rewrite fexp_eq. lia.
    - assert (Hd : Zdigits2 mx <= Zdigits2 (Zpos M * 2 ^ (E - ex)))
        by (apply Zdigits2_le; lia).
      rewrite Zdigits2_mul_pow2 in Hd by lia.
      rewrite <- HFc. apply fx_mono. lia. }
  set (M1 := Zpos M * 2 ^ (E - e1)).
  assert (HMF : Zpos M * 2 ^ (E - ex) = M1 * 2 ^ k).
  { unfold M1. replace (E - ex) with ((E - e1) + k) by (unfold k; lia).
    rewrite Z.pow_add_r by lia. ring. }
  rewrite HMF in *.
  assert (Hm1 : mx / 2 ^ k <= M1).
  { rewrite <- (Z.div_mul M1 (2 ^ k)) by lia. apply Z.div_le_mono; lia. }
  assert (Hm2 : m2 <= M1).
  { destruct (Z.eq_dec m2 (mx / 2 ^ k)) as [->|Hne]; [assumption|].
    assert (mx < M1 * 2 ^ k).
    { destruct (Z.eq_dec mx (M1 * 2 ^ k)) as [Heq|]; [|lia].
      exfalso. apply Hne. apply H2.
      - destruct lx; [reflexivity|]. exfalso.
        assert (mx < M1 * 2 ^ k) by (apply Hlt; discriminate). lia.
      - rewrite Heq. apply Z.mod_mul. lia. }
    assert (mx / 2 ^ k < M1) by (apply Z.div_lt_upper_bound; lia).
    lia. }
  assert (HpE : 0 < 2 ^ (E - e1)) by (apply Z.pow_pos_nonneg; lia).
  assert (H0m : 0 <= mx / 2 ^ k) by (apply Z.div_pos; lia).
  destruct H3 as [(-> & -> & Hlt53)|(E2 & -> & ->)].
  - destruct m2 as [|m|m]; simpl; try lia; [constructor|].
    destruct (Z.leb_spec e1 971) as [Hle1|Hgt]; [|lia].
    constructor.
    + apply bounded_iff. destruct H4 as [|H4]; [discriminate|].
      split; [exact H4|lia].
    + destruct (Z.eq_dec e1 E) as [Heq|Hne]; [right|left; lia].
      split; [assumption|].
      unfold M1 in Hm2. rewrite Heq, Z.sub_diag, Z.pow_0_r in Hm2. lia.
  - assert (HEe : e1 + 1 <= E).
    { destruct (Z.eq_dec e1 E) as [Heq|]; [|lia]. exfalso.
      unfold M1 in Hm2. rewrite Heq, Z.sub_diag, Z.pow_0_r in Hm2. lia. }
    change (2 ^ 52) with (Zpos 4503599627370496). simpl result_of.
    destruct (Z.leb_spec (e1 + 1) 971) as [Hle1|Hgt]; [|lia].
    constructor.
    + apply bounded_iff. destruct H4 as [|H4]; [discriminate|].
      split; [exact H4|lia].
    + destruct (Z.eq_dec (e1 + 1) E) as [Heq|Hne]; [right|left; lia].
      split; [assumption|].
      unfold M1 in Hm2. replace (E - e1) with 1 in Hm2 by lia.
      rewrite Z.pow_1_r in Hm2. lia.
Qed.

Lemma ubound_value M E s m e :
  bounded prec emax M E = true ->
  ubound M E (S754_finite s m e) ->
  e <= E /\ Zpos m <= Zpos M * 2 ^ (E - e).
Proof.
  intros HF H. inversion H as [|s0 m0 e0 Hb Hl]; subst.
  destruct (bounded_facts M E HF) as (HE & HdM & HM & HMn).
  destruct (bounded_facts m e Hb) as (He & Hdm & Hm & Hmn).
  destruct Hl as [Hlt|[-> Hle]].
  - split; [lia|].
    destruct HMn as [?|[_ HM52]]; [lia|].
    assert (2 ^ 1 <= 2 ^ (E - e)) by (apply Z.pow_le_mono_r; lia).
    rewrite Z.pow_1_r in H0. nia.
  - split; [lia|]. rewrite Z.sub_diag, Z.pow_0_r. lia.
Qed.

Lemma shape_nonneg x : shape false x -> nonneg x.
Proof. intros H; inversion H; exact I. Qed.

Lemma mul_enough mx ex my ey :
  bounded prec emax mx ex = true -> bounded prec emax my ey = true ->
  ex + ey <= fx (Zdigits2 (Zpos (mx * my)) + (ex + ey)).
Proof.
  intros Hx Hy.
  destruct (bounded_facts mx ex Hx) as (Hex & Hdx & Hmx & Hnx).
  destruct (bounded_facts my ey Hy) as (Hey & Hdy & Hmy & Hny).
  rewrite fexp_eq.
  assert (Hd : 1 <= Zdigits2 (Zpos (mx * my))) by (simpl; lia).
  assert (Hmul : forall a b, 2 ^ 52 <= Zpos a -> 53 <= Zdigits2 (Zpos (a * b))).
  { intros a b Ha. apply (Zdigits2_ge_pow2 _ 52); [|lia].
    rewrite Pos2Z.inj_mul. nia. }
  destruct Hnx as [Ex|[_ Hx52]].
  - destruct Hny as [Ey|[_ Hy52]]; [lia|].
    assert (H := Hmul my mx Hy52). rewrite Pos.mul_comm in H. lia.
  - assert (H := Hmul mx my Hx52). lia.
Qed.

Lemma mul_ub x y M1 E1 M2 E2 M E :
  bounded prec emax M1 E1 = true -> bounded prec emax M2 E2 = true ->
  bounded prec emax M E = true ->
  ubound M1 E1 x -> ubound M2 E2 y ->
  E1 + E2 <= E -> Zpos M1 * Zpos M2 <= Zpos M * 2 ^ (E - (E1 + E2)) ->
  ubound M E (mul x y).
Proof.
  intros HF1 HF2 HF Hx Hy HE HM.
  destruct x as [sx|sx| |sx mx ex]; try (inversion Hx; fail);
  destruct y as [sy|sy| |sy my ey]; try (inversion Hy; fail);
    try (simpl; constructor; fail).
  destruct (ubound_value _ _ _ _ _ HF1 Hx) as [Hex Hmx].
  destruct (ubound_value _ _ _ _ _ HF2 Hy) as [Hey Hmy].
  assert (Hbx : bounded prec emax mx ex = true) by (inversion Hx; assumption).
  assert (Hby : bounded prec emax my ey = true) by (inversion Hy; assumption).
  unfold mul, SFmul. apply bra_upper; try assumption; try lia.
  - apply mul_enough; assumption.
  - rewrite Pos2Z.inj_mul.
    replace (E - (ex + ey)) with ((E - (E1 + E2)) + (E1 - ex) + (E2 - ey)) by lia.
    rewrite !Z.pow_add_r by lia.
    assert (0 < 2 ^ (E1 - ex)) by (apply Z.pow_pos_nonneg; lia).
    assert (0 < 2 ^ (E2 - ey)) by (apply Z.pow_pos_nonneg; lia).
    assert (0 < 2 ^ (E - (E1 + E2))) by (apply Z.pow_pos_nonneg; lia).
    transitivity ((Zpos M1 * 2 ^ (E1 - ex)) * (Zpos M2 * 2 ^ (E2 - ey))).
    + apply Z.mul_le_mono_nonneg; lia.
    + replace (Z.pos M1 * 2 ^ (E1 - ex) * (Z.pos M2 * 2 ^ (E2 - ey)))
        with ((Zpos M1 * Zpos M2) * (2 ^ (E1 - ex) * 2 ^ (E2 - ey))) by ring.
      replace (Z.pos M * (2 ^ (E - (E1 + E2)) * 2 ^ (E1 - ex) * 2 ^ (E2 - ey)))
        with ((Zpos M * 2 ^ (E - (E1 + E2))) * (2 ^ (E1 - ex) * 2 ^ (E2 - ey))) by ring.
      apply Z.mul_le_mono_nonneg_r; [nia|assumption].
  - intros H; exfalso; apply H; reflexivity.
Qed.

Lemma mul_sign x y M1 E1 M2 E2 :
  ubound M1 E1 x -> ubound M2 E2 y ->
  shape (xorb (sign_of x) (sign_of y)) (mul x y).
Proof.
  intros Hx Hy.
  destruct x as [sx|sx| |sx mx ex]; try (inversion Hx; fail);
  destruct y as [sy|sy| |sy my ey]; try (inversion Hy; fail);
    try (simpl; constructor; fail).
  unfold mul, SFmul. simpl sign_of.
  apply bra_valid_sign; [lia|].
  apply mul_enough; [inversion Hx|inversion Hy]; assumption.
Qed.

(** binary_round *)

Lemma iter_xO m d : Zpos (Pos.iter xO m d) = Zpos m * 2 ^ Zpos d.
Proof.
  induction d as [|d IH] using Pos.peano_ind.
  - simpl. lia.
  - rewrite Pos.iter_succ, Pos2Z.inj_xO, IH, Pos2Z.inj_succ, Z.pow_succ_r by lia.
    ring.
Qed.

Lemma shl_align_spec mx ex ex' :
  snd (shl_align mx ex ex') = Z.min ex ex' /\
  Zpos (fst (shl_align mx ex ex')) = Zpos mx * 2 ^ (ex - Z.min ex ex').
Proof.
  unfold shl_align. destruct (ex' - ex) as [|d|d] eqn:Hd; simpl fst; simpl snd.
  - replace (Z.min ex ex') with ex by lia. rewrite Z.sub_diag. simpl. lia.
  - replace (Z.min ex ex') with ex by lia. rewrite Z.sub_diag. simpl. lia.
  - replace (Z.min ex ex') with ex' by lia.
    replace (ex - ex') with (Zpos d) by lia. split; [reflexivity|apply iter_xO].
Qed.

Lemma bround_eq sx mx ex :
  exists mz ez,
    binary_round prec emax sx mx ex = bra sx (Zpos mz) ez loc_Exact /\
    ez <= ex /\ Zpos mz = Zpos mx * 2 ^ (ex - ez) /\
    ez <= fx (Zdigits2 (Zpos mz) + ez) /\
    (-1074 <= ex -> fx (Zdigits2 (Zpos mz) + ez) - ez < Zdigits2 (Zpos mz)).
Proof.
  unfold binary_round.
  destruct (shl_align_spec mx ex (fx (Zpos (digits2_pos mx) + ex))) as [H1 H2].
  destruct (shl_align mx ex (fx (Zpos (digits2_pos mx) + ex))) as [mz ez].
  simpl fst in *; simpl snd in *.
  exists mz, ez. split; [reflexivity|].
  change (Zpos (digits2_pos mx)) with (Zdigits2 (Zpos mx)) in *.
  assert (Hez : ez <= ex) by lia.
  assert (Hd : Zdigits2 (Zpos mz) = Zdigits2 (Zpos mx) + (ex - ez)).
  { rewrite H2, <- H1. apply Zdigits2_mul_pow2; lia. }
  assert (Hp := Zdigits2_pos (Zpos mx) ltac:(lia)).
  repeat split; try lia.
  - rewrite H1. exact H2.
  - rewrite Hd. replace (Zdigits2 (Zpos mx) + (ex - ez) + ez)
      with (Zdigits2 (Zpos mx) + ex) by lia. lia.
  - intros He. rewrite Hd.
    replace (Zdigits2 (Zpos mx) + (ex - ez) + ez)
      with (Zdigits2 (Zpos mx) + ex) by lia.
    rewrite fexp_eq in *. lia.
Qed.

Lemma bround_shape sx mx ex : shape sx (binary_round prec emax sx mx ex).
Proof.
  destruct (bround_eq sx mx ex) as (mz & ez & -> & _ & _ & Hk & _).
  apply bra_valid_sign; [lia|exact Hk].
Qed.

Lemma bround_nonzero sx mx ex :
  -1074 <= ex -> binary_round prec emax sx mx ex <> S754_zero sx.
Proof.
  intros He.
  destruct (bround_eq sx mx ex) as (mz & ez & -> & _ & _ & Hk & Hd).
  apply bra_nonzero; [lia|exact Hk|auto].
Qed.

Lemma bround_upper sx mx ex M E :
  bounded prec emax M E = true -> ex <= E ->
  Zpos mx <= Zpos M * 2 ^ (E - ex) ->
  ubound M E (binary_round prec emax sx mx ex).
Proof.
  intros HF He Hm.
  destruct (bround_eq sx mx ex) as (mz & ez & -> & Hez & Hmz & Hk & _).
  apply bra_upper; try assumption; try lia.
  - rewrite Hmz. replace (E - ez) with ((E - ex) + (ex - ez)) by lia.
    rewrite Z.pow_add_r by lia.
    assert (0 < 2 ^ (ex - ez)) by (apply Z.pow_pos_nonneg; lia).
    nia.
  - intros H; exfalso; apply H; reflexivity.
Qed.

(** Integer conversion *)

Lemma of_Z_shape n : 0 < n -> exists m e,
  of_Z n = S754_finite false m e \/ of_Z n = S754_infinity false.
Proof.
  intros Hn. destruct n as [|p|p]; try lia.
  unfold of_Z, binary_normalize.
  assert (Hs := bround_shape false p 0).
  assert (Hz := bround_nonzero false p 0 ltac:(lia)).
  inversion Hs as [Hq|m e Hb Hq|Hq].
  - rewrite <- Hq in Hz. exfalso. apply Hz. reflexivity.
  - exists m, e. left. reflexivity.
  - exists 1%positive, 0. right. reflexivity.
Qed.

Lemma of_Z_ub n M E :
  bounded prec emax M E = true -> 0 <= E ->
  0 <= n <= Zpos M * 2 ^ E ->
  ubound M E (of_Z n) /\ nonneg (of_Z n).
Proof.
  intros HF HE Hn. destruct n as [|p|p]; try lia.
  - split; [constructor|exact I].
  - unfold of_Z, binary_normalize. split.
    + apply bround_upper; try assumption. rewrite Z.sub_0_r. lia.
    + apply shape_nonneg, bround_shape.
Qed.

Lemma of_Z_pos_finite n M E :
  bounded prec emax M E = true -> 0 <= E ->
  0 < n <= Zpos M * 2 ^ E ->
  exists m e, of_Z n = S754_finite false m e /\ bounded prec emax m e = true.
Proof.
  intros HF HE Hn.
  destruct (of_Z_ub n M E HF HE ltac:(lia)) as [Hu _].
  destruct (of_Z_shape n ltac:(lia)) as (m & e & [Hq|Hq]); rewrite Hq in Hu.
  - exists m, e. split; [exact Hq|]. inversion Hu; assumption.
  - inversion Hu.
Qed.

(** Addition and subtraction *)

Lemma ubound_weaken M2 E2 M E x :
  E2 <= E -> Zpos M2 <= Zpos M * 2 ^ (E - E2) ->
  ubound M2 E2 x -> ubound M E x.
Proof.
  intros HE HM Hx. inversion Hx as [s|s m e Hb Hl]; subst; constructor;
    [assumption|].
  destruct Hl as [Hlt|[-> Hle]]; [left; lia|].
  destruct (Z.eq_dec E2 E) as [->|]; [right|left; lia].
  rewrite Z.sub_diag, Z.pow_0_r in HM. split; [reflexivity|lia].
Qed.

Lemma normalize_ub z ez M E :
  bounded prec emax M E = true -> ez <= E ->
  Z.abs z <= Zpos M * 2 ^ (E - ez) ->
  ubound M E (binary_normalize prec emax z ez false).
Proof.
  intros HF He Hz. destruct z as [|p|p]; simpl binary_normalize.
  - constructor.
  - apply bround_upper; assumption.
  - apply bround_upper; assumption.
Qed.

Lemma normalize_nonneg z ez :
  0 <= z -> nonneg (binary_normalize prec emax z ez false).
Proof.
  intros Hz. destruct z as [|p|p]; simpl binary_normalize; try lia.
  - exact I.
  - apply shape_nonneg, bround_shape.
Qed.

Lemma pow2_split3 a b c :
  0 <= a -> 0 <= b -> 0 <= c -> 2 ^ (a + b + c) = 2 ^ a * 2 ^ b * 2 ^ c.
Proof. intros. rewrite !Z.pow_add_r by lia. reflexivity. Qed.

Lemma aligned_sum_bound mx ex my ey M1 E1 M2 E2 M E :
  bounded prec emax mx ex = true -> bounded prec emax my ey = true ->
  ex <= E1 -> Zpos mx <= Zpos M1 * 2 ^ (E1 - ex) ->
  ey <= E2 -> Zpos my <= Zpos M2 * 2 ^ (E2 - ey) ->
  E1 <= E -> E2 <= E ->
  Zpos M1 * 2 ^ (E1 + 1074) + Zpos M2 * 2 ^ (E2 + 1074)
    <= Zpos M * 2 ^ (E + 1074) ->
  Zpos (fst (shl_align mx ex (Z.min ex ey))) +
  Zpos (fst (shl_align my ey (Z.min ex ey)))
    <= Zpos M * 2 ^ (E - Z.min ex ey).
Proof.
  intros Hbx Hby Hex Hmx Hey Hmy H1 H2 Hsum.
  destruct (bounded_facts mx ex Hbx) as (Hrx & _).
  destruct (bounded_facts my ey Hby) as (Hry & _).
  set (ez := Z.min ex ey).
  destruct (shl_align_spec mx ex ez) as [_ Hx].
  destruct (shl_align_spec my ey ez) as [_ Hy].
  replace (Z.min ex ez) with ez in Hx by (unfold ez; lia).
  replace (Z.min ey ez) with ez in Hy by (unfold ez; lia).
  rewrite Hx, Hy.
  assert (Hez : -1074 <= ez <= ex /\ ez <= ey) by (unfold ez; lia).
  assert (Hp : 0 < 2 ^ (ez + 1074)) by (apply Z.pow_pos_nonneg; lia).
  apply (Z.mul_le_mono_pos_r _ _ (2 ^ (ez + 1074)) Hp).
  assert (Hx' : Zpos mx * 2 ^ (ex - ez) * 2 ^ (ez + 1074)
                <= Zpos M1 * 2 ^ (E1 + 1074)).
  { replace (E1 + 1074) with ((E1 - ex) + (ex - ez) + (ez + 1074)) by lia.
    rewrite (pow2_split3 (E1 - ex) (ex - ez) (ez + 1074)) by lia.
    assert (0 < 2 ^ (ex - ez)) by (apply Z.pow_pos_nonneg; lia).
    nia. }
  assert (Hy' : Zpos my * 2 ^ (ey - ez) * 2 ^ (ez + 1074)
                <= Zpos M2 * 2 ^ (E2 + 1074)).
  { replace (E2 + 1074) with ((E2 - ey) + (ey - ez) + (ez + 1074)) by lia.
    rewrite (pow2_split3 (E2 - ey) (ey - ez) (ez + 1074)) by lia.
    assert (0 < 2 ^ (ey - ez)) by (apply Z.pow_pos_nonneg; lia).
    nia. }
  replace (Zpos M * 2 ^ (E - ez) * 2 ^ (ez + 1074)) with (Zpos M * 2 ^ (E + 1074)).
  - lia.
  - replace (E + 1074) with ((E - ez) + (ez + 1074)) by lia.
    rewrite (Z.pow_add_r 2 (E - ez) (ez + 1074)) by lia. ring.
Qed.

Lemma sum_weaken M1 E1 M2 E2 M E :
  -1074 <= E1 <= E -> -1074 <= E2 ->
  Zpos M1 * 2 ^ (E1 + 1074) + Zpos M2 * 2 ^ (E2 + 1074)
    <= Zpos M * 2 ^ (E + 1074) ->
  Zpos M1 <= Zpos M * 2 ^ (E - E1).
Proof.
  intros H1 H2 Hs.
  assert (0 < 2 ^ (E1 + 1074)) by (apply Z.pow_pos_nonneg; lia).
  assert (0 < 2 ^ (E2 + 1074)) by (apply Z.pow_pos_nonneg; lia).
  replace (E + 1074) with ((E - E1) + (E1 + 1074)) in Hs by lia.
  rewrite (Z.pow_add_r 2 (E - E1) (E1 + 1074)) in Hs by lia.
  apply (Z.mul_le_mono_pos_r _ _ (2 ^ (E1 + 1074))); [assumption|].
  assert (0 < Zpos M2 * 2 ^ (E2 + 1074)) by (apply Z.mul_pos_pos; lia).
  lia.
Qed.

Lemma add_ub x y M1 E1 M2 E2 M E :
  bounded prec emax M1 E1 = true -> bounded prec emax M2 E2 = true ->
  bounded prec emax M E = true ->
  ubound M1 E1 x -> ubound M2 E2 y ->
  E1 <= E -> E2 <= E ->
  Zpos M1 * 2 ^ (E1 + 1074) + Zpos M2 * 2 ^ (E2 + 1074)
    <= Zpos M * 2 ^ (E + 1074) ->
  ubound M E (add x y).
Proof.
  intros HF1 HF2 HF Hx Hy H1 H2 Hs.
  destruct (bounded_facts _ _ HF1) as (Hr1 & _).
  destruct (bounded_facts _ _ HF2) as (Hr2 & _).
  assert (Hw1 := sum_weaken M1 E1 M2 E2 M E ltac:(lia) ltac:(lia) Hs).
  assert (Hw2 := sum_weaken M2 E2 M1 E1 M E ltac:(lia) ltac:(lia) ltac:(lia)).
  destruct x as [sx|sx| |sx mx ex]; try (inversion Hx; fail);
  destruct y as [sy|sy| |sy my ey]; try (inversion Hy; fail).
  - simpl. destruct sx, sy; constructor.
  - simpl. apply (ubound_weaken M2 E2); assumption.
  - simpl. apply (ubound_weaken M1 E1); assumption.
  - destruct (ubound_value _ _ _ _ _ HF1 Hx) as [Hex Hmx].
    destruct (ubound_value _ _ _ _ _ HF2 Hy) as [Hey Hmy].
    assert (Hbx : bounded prec emax mx ex = true) by (inversion Hx; assumption).
    assert (Hby : bounded prec emax my ey = true) by (inversion Hy; assumption).
    assert (Hb := aligned_sum_bound mx ex my ey M1 E1 M2 E2 M E
                    Hbx Hby Hex Hmx Hey Hmy H1 H2 Hs).
    unfold add, SFadd. apply normalize_ub; [assumption|lia|].
    destruct sx, sy; unfold cond_Zopp; lia.
Qed.

Lemma sub_ub x y M1 E1 M2 E2 M E :
  bounded prec emax M1 E1 = true -> bounded prec emax M2 E2 = true ->
  bounded prec emax M E = true ->
  ubound M1 E1 x -> ubound M2 E2 y ->
  E1 <= E -> E2 <= E ->
  Zpos M1 * 2 ^ (E1 + 1074) + Zpos M2 * 2 ^ (E2 + 1074)
    <= Zpos M * 2 ^ (E + 1074) ->
  ubound M E (sub x y).
Proof.
  intros HF1 HF2 HF Hx Hy H1 H2 Hs.
  destruct (bounded_facts _ _ HF1) as (Hr1 & _).
  destruct (bounded_facts _ _ HF2) as (Hr2 & _).
  assert (Hw1 := sum_weaken M1 E1 M2 E2 M E ltac:(lia) ltac:(lia) Hs).
  assert (Hw2 := sum_weaken M2 E2 M1 E1 M E ltac:(lia) ltac:(lia) ltac:(lia)).
  destruct x as [sx|sx| |sx mx ex]; try (inversion Hx; fail);
  destruct y as [sy|sy| |sy my ey]; try (inversion Hy; fail).
  - simpl. destruct sx, sy; constructor.
  - simpl. apply (ubound_weaken M2 E2); try assumption.
    inversion Hy; subst. constructor; assumption.
  - simpl. apply (ubound_weaken M1 E1); assumption.
  - destruct (ubound_value _ _ _ _ _ HF1 Hx) as [Hex Hmx].
    destruct (ubound_value _ _ _ _ _ HF2 Hy) as [Hey Hmy].
    assert (Hbx : bounded prec emax mx ex = true) by (inversion Hx; assumption).
    assert (Hby : bounded prec emax my ey = true) by (inversion Hy; assumption).
    assert (Hb := aligned_sum_bound mx ex my ey M1 E1 M2 E2 M E
                    Hbx Hby Hex Hmx Hey Hmy H1 H2 Hs).
    unfold sub, SFsub. apply normalize_ub; [assumption|lia|].
    destruct sx, sy; unfold cond_Zopp; lia.
Qed.

Lemma add_nonneg x y : nonneg x -> nonneg y -> nonneg (add x y).
Proof.
  destruct x as [[]|[]| |[] mx ex]; try contradiction;
  destruct y as [[]|[]| |[] my ey]; try contradiction; intros _ _;
    try exact I.
  unfold add, SFadd. apply normalize_nonneg. unfold cond_Zopp. lia.
Qed.

(** Division *)

Lemma new_location_exact n r : new_location n r = loc_Exact <-> r = 0.
Proof.
  unfold new_location, new_location_even, new_location_odd.
  destruct (Z.even n); destruct (Z.eqb_spec r 0); split; intros H;
    try reflexivity; try assumption; try discriminate; contradiction.
Qed.

Lemma shift_match m s :
  0 <= s ->
  match s with
  | 0 => m
  | Zpos _ => Z.shiftl m s
  | Zneg _ => 0
  end = m * 2 ^ s.
Proof.
  intros Hs. destruct s as [|p|p]; try lia.
  apply Z.shiftl_mul_pow2. lia.
Qed.

Lemma div_core_spec mx ex my ey :
  exists q e' l,
    SFdiv_core_binary prec emax (Zpos mx) ex (Zpos my) ey = (q, e', l) /\
    e' <= ex - ey /\
    e' <= fx (Zdigits2 (Zpos mx) + ex - (Zdigits2 (Zpos my) + ey)) /\
    Z.min (-1074) (ex - ey) <= e' /\
    q = (Zpos mx * 2 ^ (ex - ey - e')) / Zpos my /\
    (l = loc_Exact <-> (Zpos mx * 2 ^ (ex - ey - e')) mod Zpos my = 0) /\
    0 <= q /\ e' <= fx (Zdigits2 q + e').
Proof.
  unfold SFdiv_core_binary.
  set (d1 := Zdigits2 (Zpos mx)). set (d2 := Zdigits2 (Zpos my)).
  set (e' := Z.min (fx (d1 + ex - (d2 + ey))) (ex - ey)).
  set (s := ex - ey - e').
  assert (Hs : 0 <= s) by (unfold s, e'; lia).
  set (m' := match s with
             | 0 => Zpos mx
             | Zpos _ => Z.shiftl (Zpos mx) s
             | Zneg _ => 0
             end).
  assert (Hm' : m' = Zpos mx * 2 ^ s).
  { unfold m'. apply shift_match. exact Hs. }
  destruct (Z.div_eucl m' (Zpos my)) as [q r] eqn:Hqr.
  assert (Hq : q = m' / Zpos my) by (unfold Z.div; rewrite Hqr; reflexivity).
  assert (Hr : r = m' mod Zpos my) by (unfold Z.modulo; rewrite Hqr; reflexivity).
  exists q, e', (new_location (Zpos my) r).
  assert (Hps : 0 < 2 ^ s) by (apply Z.pow_pos_nonneg; lia).
  assert (H0q : 0 <= q) by (rewrite Hq; apply Z.div_pos; nia).
  split; [reflexivity|].
  split; [unfold e'; lia|].
  split; [unfold e'; lia|].
  split; [unfold e'; rewrite fexp_eq; lia|].
  split; [rewrite Hq, Hm'; reflexivity|].
  split; [rewrite new_location_exact, Hr, Hm'; reflexivity|].
  split; [exact H0q|].
  destruct (Z_le_gt_dec e' (-1074)) as [Hle|Hgt].
  - rewrite fexp_eq. lia.
  - assert (He : e' <= d1 + ex - (d2 + ey) - 53).
    { assert (e' <= fx (d1 + ex - (d2 + ey))) by (unfold e'; lia).
      rewrite fexp_eq in H. lia. }
    assert (Hb1 := Zdigits2_bounds (Zpos mx) ltac:(lia)). fold d1 in Hb1.
    assert (Hb2 := Zdigits2_bounds (Zpos my) ltac:(lia)). fold d2 in Hb2.
    assert (Hd2 : 0 < d2) by (apply Zdigits2_pos; lia).
    assert (Hd1 : 0 < d1) by (apply Zdigits2_pos; lia).
    assert (Ht : 0 <= d1 - 1 + s - d2) by (unfold s; lia).
    assert (Hlow : 2 ^ (d1 - 1 + s - d2) <= q).
    { rewrite Hq, Hm'. apply Z.div_le_lower_bound; [lia|].
      assert (Hpow : 2 ^ (d1 - 1) * 2 ^ s = 2 ^ (d1 - 1 + s - d2) * 2 ^ d2).
      { rewrite <- !Z.pow_add_r by lia. f_equal. lia. }
      assert (0 < 2 ^ (d1 - 1 + s - d2)) by (apply Z.pow_pos_nonneg; lia).
      nia. }
    assert (Hdq := Zdigits2_ge_pow2 q _ Hlow Ht).
    rewrite fexp_eq. unfold s in Hdq. lia.
Qed.

Lemma div_shape sx mx ex sy my ey :
  shape (xorb sx sy) (div (S754_finite sx mx ex) (S754_finite sy my ey)).
Proof.
  unfold div, SFdiv.
  destruct (div_core_spec mx ex my ey)
    as (q & e' & l & -> & _ & _ & _ & _ & _ & H0 & Hk).
  apply bra_valid_sign; assumption.
Qed.

Lemma div_nonneg x my ey :
  nonneg x -> nonneg (div x (S754_finite false my ey)).
Proof.
  destruct x as [[]|[]| |[] mx ex]; try contradiction; intros _; try exact I.
  apply shape_nonneg. apply (div_shape false mx ex false my ey).
Qed.

Lemma div_ub_core sx mx ex sy my ey M E :
  bounded prec emax M E = true ->
  -1074 <= ex -> -1074 <= ey ->
  Zpos mx * 2 ^ (ex + 2148) <= Zpos M * Zpos my * 2 ^ (E + ey + 2148) ->
  ubound M E (div (S754_finite sx mx ex) (S754_finite sy my ey)).
Proof.
  intros HF Hex Hey Hv.
  destruct (bounded_facts M E HF) as (HE & HdM & HM & HMn).
  unfold div, SFdiv.
  destruct (div_core_spec mx ex my ey)
    as (q & e' & l & -> & He1 & He2 & He3 & Hq & Hl & H0 & Hk).
  set (d1 := Zdigits2 (Zpos mx)) in *. set (d2 := Zdigits2 (Zpos my)) in *.
  assert (Hb1 := Zdigits2_bounds (Zpos mx) ltac:(lia)). fold d1 in Hb1.
  assert (Hb2 := Zdigits2_bounds (Zpos my) ltac:(lia)). fold d2 in Hb2.
  assert (HbM := Zdigits2_bounds (Zpos M) ltac:(lia)).
  set (dM := Zdigits2 (Zpos M)) in *.
  assert (Hd1 : 0 < d1) by (apply Zdigits2_pos; lia).
  assert (Hd2 : 0 < d2) by (apply Zdigits2_pos; lia).
  assert (HdM0 : 0 < dM) by (apply Zdigits2_pos; lia).
  assert (Hmag : d1 + ex - (d2 + ey) <= dM + E).
  { destruct (Z_le_gt_dec (d1 + ex - (d2 + ey)) (dM + E)) as [|Hgt];
      [assumption|exfalso].
    assert (H1 : 2 ^ (dM + d2 + (E + ey + 2148)) <= 2 ^ (d1 - 1 + (ex + 2148)))
      by (apply Z.pow_le_mono_r; lia).
    rewrite (Z.pow_add_r 2 (d1 - 1) (ex + 2148)) in H1 by lia.
    rewrite (Z.pow_add_r 2 (dM + d2) (E + ey + 2148)) in H1 by lia.
    rewrite (Z.pow_add_r 2 dM d2) in H1 by lia.
    assert (0 < 2 ^ (ex + 2148)) by (apply Z.pow_pos_nonneg; lia).
    assert (0 < 2 ^ (E + ey + 2148)) by (apply Z.pow_pos_nonneg; lia).
    assert (Zpos M * Zpos my < 2 ^ dM * 2 ^ d2) by nia.
    assert (Zpos M * Zpos my * 2 ^ (E + ey + 2148)
            < 2 ^ dM * 2 ^ d2 * 2 ^ (E + ey + 2148))
      by (apply Z.mul_lt_mono_pos_r; assumption).
    assert (2 ^ (d1 - 1) * 2 ^ (ex + 2148) <= Zpos mx * 2 ^ (ex + 2148))
      by (apply Z.mul_le_mono_nonneg_r; lia).
    lia. }
  assert (HeE : e' <= E).
  { apply bounded_iff in HF. destruct HF as [HFc _]. fold dM in HFc.
    rewrite <- HFc. etransitivity; [exact He2|]. apply fx_mono. lia. }
  set (s := ex - ey - e') in *.
  assert (Hs : 0 <= s) by (unfold s; lia).
  set (c := ey + e' + 2148).
  assert (Hc : 0 <= c) by (unfold c; lia).
  assert (Hpc : 0 < 2 ^ c) by (apply Z.pow_pos_nonneg; lia).
  assert (Hmain : Zpos mx * 2 ^ s <= Zpos M * 2 ^ (E - e') * Zpos my).
  { apply (Z.mul_le_mono_pos_r _ _ (2 ^ c) Hpc).
    replace (Zpos mx * 2 ^ s * 2 ^ c) with (Zpos mx * 2 ^ (ex + 2148)).
    - replace (Zpos M * 2 ^ (E - e') * Zpos my * 2 ^ c)
        with (Zpos M * Zpos my * 2 ^ (E + ey + 2148)); [exact Hv|].
      replace (E + ey + 2148) with ((E - e') + c) by (unfold c; lia).
      rewrite (Z.pow_add_r 2 (E - e') c) by lia. ring.
    - replace (ex + 2148) with (s + c) by (unfold s, c; lia).
      rewrite (Z.pow_add_r 2 s c) by lia. ring. }
  apply bra_upper; try assumption.
  - rewrite Hq. apply Z.div_le_upper_bound; lia.
  - intros Hne. rewrite Hq.
    assert (Hr : (Zpos mx * 2 ^ s) mod Zpos my <> 0).
    { intros H. apply Hne. apply Hl. exact H. }
    assert (Hdm := Z.div_mod (Zpos mx * 2 ^ s) (Zpos my) ltac:(lia)).
    assert (Hmb := Z.mod_pos_bound (Zpos mx * 2 ^ s) (Zpos my) ltac:(lia)).
    nia.
Qed.

Lemma div_ub_ge1 x sy my ey M E :
  bounded prec emax M E = true -> ubound M E x ->
  bounded prec emax my ey = true ->
  2 ^ 1074 <= Zpos my * 2 ^ (ey + 1074) ->
  ubound M E (div x (S754_finite sy my ey)).
Proof.
  intros HF Hx Hy H1.
  destruct (bounded_facts M E HF) as (HE & _).
  destruct (bounded_facts my ey Hy) as (Hey & _).
  destruct x as [sx|sx| |sx mx ex]; try (inversion Hx; fail).
  - simpl. constructor.
  - destruct (ubound_value _ _ _ _ _ HF Hx) as [Hex Hmx].
    assert (Hbx : bounded prec emax mx ex = true) by (inversion Hx; assumption).
    destruct (bounded_facts mx ex Hbx) as (Hrx & _).
    apply div_ub_core; try assumption; try lia.
    assert (Hp1 : 0 < 2 ^ (ex + 2148)) by (apply Z.pow_pos_nonneg; lia).
    assert (Hp2 : 0 < 2 ^ (E + 1074)) by (apply Z.pow_pos_nonneg; lia).
    transitivity (Zpos M * 2 ^ (E - ex) * 2 ^ (ex + 2148)).
    + apply Z.mul_le_mono_nonneg_r; lia.
    + replace (Zpos M * 2 ^ (E - ex) * 2 ^ (ex + 2148))
        with (Zpos M * (2 ^ 1074 * 2 ^ (E + 1074))).
      * replace (Zpos M * Zpos my * 2 ^ (E + ey + 2148))
          with (Zpos M * (Zpos my * 2 ^ (ey + 1074) * 2 ^ (E + 1074))).
        -- apply Z.mul_le_mono_nonneg_l; [lia|].
           apply Z.mul_le_mono_nonneg_r; lia.
        -- replace (E + ey + 2148) with ((ey + 1074) + (E + 1074)) by lia.
           rewrite (Z.pow_add_r 2 (ey + 1074) (E + 1074)) by lia. ring.
      * rewrite <- Z.mul_assoc. f_equal.
        rewrite <- !Z.pow_add_r by lia. f_equal. lia.
Qed.

Lemma div_ub_self x sy my ey :
  bounded prec emax my ey = true -> ubound my ey x ->
  ubound 4503599627370496 (-52) (div x (S754_finite sy my ey)).
Proof.
  intros Hy Hx.
  destruct (bounded_facts my ey Hy) as (Hey & _).
  destruct x as [sx|sx| |sx mx ex]; try (inversion Hx; fail).
  - simpl. constructor.
  - destruct (ubound_value _ _ _ _ _ Hy Hx) as [Hex Hmx].
    assert (Hbx : bounded prec emax mx ex = true) by (inversion Hx; assumption).
    destruct (bounded_facts mx ex Hbx) as (Hrx & _).
    apply div_ub_core; try reflexivity; try lia.
    assert (Hp1 : 0 < 2 ^ (ex + 2148)) by (apply Z.pow_pos_nonneg; lia).
    transitivity (Zpos my * 2 ^ (ey - ex) * 2 ^ (ex + 2148)).
    + apply Z.mul_le_mono_nonneg_r; lia.
    + replace (-52 + ey + 2148) with (ey + 2096) by lia.
      replace (Zpos my * 2 ^ (ey - ex) * 2 ^ (ex + 2148))
        with (Zpos my * 2 ^ (ey + 2148)).
      * replace (ey + 2148) with (52 + (ey + 2096)) by lia.
        rewrite (Z.pow_add_r 2 52 (ey + 2096)) by lia.
        change (2 ^ 52) with 4503599627370496. lia.
      * rewrite <- Z.mul_assoc. f_equal.
        rewrite <- Z.pow_add_r by lia. f_equal. lia.
Qed.

(** Square root *)

Lemma sqrt_core_spec m e :
  exists q e' l,
    SFsqrt_core_binary prec emax (Zpos m) e = (q, e', l) /\
    2 * e' <= e /\
    e' <= fx (Z.div2 (Zdigits2 (Zpos m) + e + 1)) /\
    0 <= q /\
    q * q <= Zpos m * 2 ^ (e - 2 * e') /\
    (l <> loc_Exact -> q * q < Zpos m * 2 ^ (e - 2 * e')) /\
    e' <= fx (Zdigits2 q + e').
Proof.
  unfold SFsqrt_core_binary.
  set (d := Zdigits2 (Zpos m)).
  set (e' := Z.min (fx (Z.div2 (d + e + 1))) (Z.div2 e)).
  assert (He2 : 2 * Z.div2 e <= e).
  { rewrite Z.div2_div. assert (H := Z.mul_div_le e 2 ltac:(lia)). lia. }
  assert (Hs : 0 <= e - 2 * e') by (unfold e'; lia).
  rewrite (shift_match (Zpos m) (e - 2 * e') Hs).
  set (m' := Zpos m * 2 ^ (e - 2 * e')).
  assert (Hps : 0 < 2 ^ (e - 2 * e')) by (apply Z.pow_pos_nonneg; lia).
  assert (Hm' : 0 <= m') by (unfold m'; nia).
  assert (Hsp := Z.sqrtrem_spec m' Hm').
  destruct (Z.sqrtrem m') as [q r].
  destruct Hsp as [Hqr Hr].
  exists q, e', (if r =? 0 then loc_Exact
                 else loc_Inexact (if r <=? q then Lt else Gt)).
  assert (H0q : 0 <= q) by lia.
  split; [reflexivity|].
  split; [unfold e'; lia|].
  split; [unfold e'; lia|].
  split; [exact H0q|].
  split; [nia|].
  split.
  { intros Hne. destruct (Z.eqb_spec r 0) as [->|Hr0];
      [exfalso; apply Hne; reflexivity|]. nia. }
  destruct (Z_le_gt_dec e' (-1074)) as [Hle|Hgt].
  - rewrite fexp_eq. lia.
  - assert (He : e' <= Z.div2 (d + e + 1) - 53).
    { assert (H : e' <= fx (Z.div2 (d + e + 1))) by (unfold e'; lia).
      rewrite fexp_eq in H. lia. }
    assert (Hd2 : 2 * Z.div2 (d + e + 1) <= d + e + 1).
    { rewrite Z.div2_div. assert (H := Z.mul_div_le (d + e + 1) 2 ltac:(lia)). lia. }
    assert (Hb := Zdigits2_bounds (Zpos m) ltac:(lia)). fold d in Hb.
    assert (Hd : 0 < d) by (apply Zdigits2_pos; lia).
    assert (H104 : 2 ^ 104 <= m').
    { unfold m'.
      assert (2 ^ 104 <= 2 ^ (d - 1 + (e - 2 * e')))
        by (apply Z.pow_le_mono_r; lia).
      rewrite (Z.pow_add_r 2 (d - 1) (e - 2 * e')) in H by lia.
      nia. }
    assert (Hq52 : 2 ^ 52 <= q).
    { destruct (Z_le_gt_dec (2 ^ 52) q) as [|Hlt]; [assumption|exfalso].
      assert ((q + 1) * (q + 1) <= 2 ^ 52 * 2 ^ 52) by nia.
      change (2 ^ 52 * 2 ^ 52) with (2 ^ 104) in H. nia. }
    assert (Hdq := Zdigits2_ge_pow2 q 52 Hq52 ltac:(lia)).
    rewrite fexp_eq. lia.
Qed.

Lemma sqrt_nonneg x : nonneg x -> nonneg (sqrt x).
Proof.
  destruct x as [[]|[]| |[] m e]; try contradiction; intros _; try exact I.
  unfold sqrt, SFsqrt.
  destruct (sqrt_core_spec m e) as (q & e' & l & -> & _ & _ & H0 & _ & _ & Hk).
  apply shape_nonneg, bra_valid_sign; assumption.
Qed.

Lemma bounded_pow2 a :
  -1022 <= a <= 1023 -> bounded prec emax 4503599627370496 (a - 52) = true.
Proof.
  intros H. apply bounded_iff. change (Zdigits2 (Zpos 4503599627370496)) with 53.
  rewrite fexp_eq. lia.
Qed.

Lemma sqrt_ub2 a x :
  -1022 <= a <= 1023 -> -1022 <= 2 * a <= 1023 ->
  nonneg x -> ub2 (2 * a) x -> ub2 a (sqrt x).
Proof.
  intros Ha H2a Hp Hx. unfold ub2 in *.
  assert (HF := bounded_pow2 a Ha). assert (HF2 := bounded_pow2 (2 * a) H2a).
  destruct x as [[]|[]| |[] m e]; try contradiction; try (inversion Hx; fail).
  - simpl. constructor.
  - destruct (ubound_value _ _ _ _ _ HF2 Hx) as [He Hm].
    unfold sqrt, SFsqrt.
    destruct (sqrt_core_spec m e)
      as (q & e' & l & -> & He2 & Hfx & H0 & Hq & Hl & Hk).
    change (Zpos 4503599627370496) with (2 ^ 52) in Hm.
    rewrite <- Z.pow_add_r in Hm by lia.
    replace (52 + (2 * a - 52 - e)) with (2 * a - e) in Hm by lia.
    assert (Hd : Zdigits2 (Zpos m) <= 2 * a - e + 1).
    { destruct (Z_le_gt_dec (Zdigits2 (Zpos m)) (2 * a - e + 1)) as [|Hgt];
        [assumption|exfalso].
      assert (Hb := Zdigits2_bounds (Zpos m) ltac:(lia)).
      assert (2 ^ (2 * a - e + 1) <= 2 ^ (Zdigits2 (Zpos m) - 1))
        by (apply Z.pow_le_mono_r; lia).
      rewrite Z.pow_add_r in H by lia. lia. }
    assert (He' : e' <= a - 52).
    { assert (Hd2 : Z.div2 (Zdigits2 (Zpos m) + e + 1) <= a + 1).
      { rewrite Z.div2_div. apply Z.div_le_upper_bound; lia. }
      assert (H := fx_mono _ _ Hd2). rewrite (fexp_eq (a + 1)) in H. lia. }
    assert (Hsq : Zpos m * 2 ^ (e - 2 * e') <= 2 ^ (a - e') * 2 ^ (a - e')).
    { rewrite <- Z.pow_add_r by lia.
      replace (a - e' + (a - e')) with ((2 * a - e) + (e - 2 * e')) by lia.
      rewrite (Z.pow_add_r 2 (2 * a - e) (e - 2 * e')) by lia.
      apply Z.mul_le_mono_nonneg_r; [|exact Hm].
      apply Z.pow_nonneg. lia. }
    assert (Hpa : 0 < 2 ^ (a - e')) by (apply Z.pow_pos_nonneg; lia).
    assert (HM : Zpos 4503599627370496 * 2 ^ (a - 52 - e') = 2 ^ (a - e')).
    { change (Zpos 4503599627370496) with (2 ^ 52).
      rewrite <- Z.pow_add_r by lia. f_equal. lia. }
    apply bra_upper; try assumption.
    + rewrite HM. nia.
    + intros Hne. rewrite HM. specialize (Hl Hne). nia.
Qed.

(** Exactly representable results *)

Lemma bround_exact sx mx ex :
  fx (Zdigits2 (Zpos mx) + ex) <= ex ->
  fx (Zdigits2 (Zpos mx) + ex) <= 971 ->
  exists m,
    binary_round prec emax sx mx ex
      = S754_finite sx m (fx (Zdigits2 (Zpos mx) + ex)) /\
    Zpos m = Zpos mx * 2 ^ (ex - fx (Zdigits2 (Zpos mx) + ex)) /\
    bounded prec emax m (fx (Zdigits2 (Zpos mx) + ex)) = true.
Proof.
  intros He H971.
  set (e := fx (Zdigits2 (Zpos mx) + ex)) in *.
  unfold binary_round.
  change (Zpos (digits2_pos mx)) with (Zdigits2 (Zpos mx)). fold e.
  destruct (shl_align_spec mx ex e) as [H1 H2].
  destruct (shl_align mx ex e) as [mz ez]. simpl fst in *; simpl snd in *.
  replace (Z.min ex e) with e in * by lia. subst ez.
  assert (Hd : Zdigits2 (Zpos mz) + e = Zdigits2 (Zpos mx) + ex).
  { rewrite H2, Zdigits2_mul_pow2 by lia. lia. }
  assert (Hfx : fx (Zdigits2 (Zpos mz) + e) = e) by (rewrite Hd; reflexivity).
  destruct (bra_shape sx (Zpos mz) e loc_Exact ltac:(lia) ltac:(lia))
    as (m2 & m3 & e3 & _ & Hex & H3 & H4 & ->).
  rewrite Hfx, Z.sub_diag, Z.pow_0_r, Z.div_1_r in *.
  assert (Hm2 : m2 = Zpos mz) by (apply Hex; [reflexivity|apply Z.mod_1_r]).
  assert (Hlt : Zpos mz < 2 ^ 53).
  { assert (Hb := Zdigits2_bounds (Zpos mz) ltac:(lia)).
    assert (Zdigits2 (Zpos mz) <= 53) by (unfold e in Hd |- *; rewrite fexp_eq in *; unfold e in He; lia).
    assert (2 ^ Zdigits2 (Zpos mz) <= 2 ^ 53) by (apply Z.pow_le_mono_r; lia).
    lia. }
  destruct H3 as [(-> & -> & _)|(E2 & _ & _)]; [|lia].
  subst m2. exists mz. simpl result_of.
  destruct (Z.leb_spec e 971); [|lia].
  split; [reflexivity|]. split; [exact H2|].
  apply bounded_iff. split; assumption.
Qed.

Lemma of_Z_exact n :
  0 < n < 2 ^ 53 ->
  exists m e,
    of_Z n = S754_finite false m e /\ bounded prec emax m e = true /\
    -52 <= e <= 0 /\ Zpos m = n * 2 ^ (- e).
Proof.
  intros Hn. destruct n as [|p|p]; try lia.
  assert (Hd : 1 <= Zdigits2 (Zpos p) <= 53).
  { split; [assert (H := Zdigits2_pos (Zpos p)); lia|].
    apply Zdigits2_lt_pow2; lia. }
  assert (Hfx : fx (Zdigits2 (Zpos p) + 0) = Zdigits2 (Zpos p) - 53)
    by (rewrite fexp_eq; lia).
  destruct (bround_exact false p 0) as (m & Hq & Hm & Hb); try (rewrite Hfx; lia).
  rewrite Hfx in *.
  exists m, (Zdigits2 (Zpos p) - 53).
  split; [exact Hq|]. split; [exact Hb|]. split; [lia|].
  rewrite Hm, Z.sub_0_l. reflexivity.
Qed.

(** Comparison *)

Lemma SFcompare_antisym x y c :
  SFcompare x y = Some c -> SFcompare y x = Some (CompOpp c).
Proof.
  destruct x as [[]|[]| |[] m1 e1]; destruct y as [[]|[]| |[] m2 e2];
    simpl; intros H; inversion H; subst; try reflexivity;
    rewrite (Z.compare_antisym e1 e2); destruct (e1 ?= e2); simpl;
    try reflexivity;
    replace (Pos.compare_cont Eq m2 m1)
      with (CompOpp (Pos.compare_cont Eq m1 m2))
      by (rewrite Pos.compare_cont_antisym; reflexivity);
    destruct (Pos.compare_cont Eq m1 m2); reflexivity.
Qed.

Lemma SFcompare_none x y :
  SFcompare x y = None -> x = S754_nan \/ y = S754_nan.
Proof.
  destruct x as [[]|[]| |[] m1 e1]; destruct y as [[]|[]| |[] m2 e2];
    simpl; intros H; try discriminate; auto.
Qed.

Lemma ltb_false_leb x y :
  x <> S754_nan -> y <> S754_nan -> ltb y x = false -> leb x y = true.
Proof.
  unfold ltb, leb, SFltb, SFleb. intros Hx Hy.
  destruct (SFcompare y x) as [c|] eqn:Hc.
  - rewrite (SFcompare_antisym _ _ _ Hc). destruct c; simpl; congruence.
  - destruct (SFcompare_none _ _ Hc); contradiction.
Qed.

Lemma ubound_leb M E x : ubound M E x -> leb x (S754_finite false M E) = true.
Proof.
  intros H. inversion H as [s|s m e Hb Hl]; subst; unfold leb, SFleb.
  - reflexivity.
  - destruct s; [reflexivity|]. simpl.
    destruct Hl as [Hlt|[-> Hle]].
    + apply Z.compare_lt_iff in Hlt. rewrite Hlt. reflexivity.
    + rewrite Z.compare_refl.
      change (Pos.compare_cont Eq m M) with (m ?= M)%positive.
      destruct (m ?= M)%positive eqn:Hc; try reflexivity.
      change (m > M)%positive in Hc. lia.
Qed.

Lemma leb_ubound M E x :
  shape false x -> leb x (S754_finite false M E) = true -> ubound M E x.
Proof.
  intros Hs. inversion Hs as [Hq|m e Hb Hq|Hq]; subst x; unfold leb, SFleb; simpl.
  - intros _. constructor.
  - change (Pos.compare_cont Eq m M) with (m ?= M)%positive.
    destruct (Z.compare_spec e E) as [->|Hlt|Hgt]; intros H;
      try discriminate; (constructor; [assumption|]).
    + right. split; [reflexivity|].
      destruct (m ?= M)%positive eqn:Hc; try discriminate.
      * apply Pos.compare_eq in Hc. subst. lia.
      * change (m < M)%positive in Hc. lia.
    + left. assumption.
  - discriminate.
Qed.

Lemma nonneg_leb_zero x : nonneg x -> leb zero x = true.
Proof. destruct x as [[]|[]| |[] m e]; try contradiction; reflexivity. Qed.

(** Conversion to an integer *)

Lemma to_int_ub100 x :
  nonneg x -> ubound 7036874417766400 (-46) x ->
  exists n, to_int x = Some n /\ floor x = Some n /\ 0 <= n <= 100.
Proof.
  intros Hp Hx.
  destruct x as [[]|[]| |[] m e]; try contradiction; try (inversion Hx; fail).
  - exists 0. repeat split; lia.
  - destruct (ubound_value _ _ _ _ _ (eq_refl : bounded prec emax 7036874417766400 (-46) = true) Hx)
      as [He Hm].
    destruct e as [|k|k]; try lia.
    exists (Zpos m / 2 ^ Zpos k).
    assert (Hpk : 0 < 2 ^ Zpos k) by (apply Z.pow_pos_nonneg; lia).
    simpl to_int. simpl floor. unfold cond_Zopp.
    rewrite Z.quot_div_nonneg by lia.
    split; [reflexivity|]. split; [reflexivity|].
    split; [apply Z.div_pos; lia|].
    apply Z.div_le_upper_bound; [lia|].
    replace (-46 - Zneg k) with (Zpos k - 46) in Hm by lia.
    assert (Hk : 2 ^ Zpos k = 2 ^ 46 * 2 ^ (Zpos k - 46)).
    { rewrite <- Z.pow_add_r by lia. f_equal. lia. }
    rewrite Hk.
    change (Zpos 7036874417766400) with (100 * 2 ^ 46) in Hm. lia.
Qed.

(** ** Bounds by powers of two *)

Lemma value_le_mag m e M E :
  bounded prec emax m e = true -> bounded prec emax M E = true ->
  Zpos m * 2 ^ (e + 1074) <= Zpos M * 2 ^ (E + 1074) ->
  le_mag m e M E.
Proof.
  intros Hb HF Hv.
  destruct (bounded_facts m e Hb) as (He & _ & Hm & Hn).
  destruct (bounded_facts M E HF) as (HE & _ & HM & _).
  destruct (Z_lt_le_dec e E) as [Hlt|Hge]; [left; assumption|].
  destruct (Z.eq_dec e E) as [->|Hne].
  - right. split; [reflexivity|].
    assert (0 < 2 ^ (E + 1074)) by (apply Z.pow_pos_nonneg; lia). nia.
  - exfalso. destruct Hn as [|[_ H52]]; [lia|].
    replace (e + 1074) with ((e - E) + (E + 1074)) in Hv by lia.
    rewrite (Z.pow_add_r 2 (e - E) (E + 1074)) in Hv by lia.
    assert (0 < 2 ^ (E + 1074)) by (apply Z.pow_pos_nonneg; lia).
    assert (H1 : 2 ^ 1 <= 2 ^ (e - E)) by (apply Z.pow_le_mono_r; lia).
    rewrite Z.pow_1_r in H1.
    assert (H2 : Zpos M < Zpos m * 2 ^ (e - E)) by nia.
    assert (H3 : Zpos M * 2 ^ (E + 1074) < Zpos m * 2 ^ (e - E) * 2 ^ (E + 1074))
      by (apply Z.mul_lt_mono_pos_r; assumption).
    rewrite Z.mul_assoc in Hv. lia.
Qed.

Lemma ubound_refl s m e :
  bounded prec emax m e = true -> ubound m e (S754_finite s m e).
Proof. intros H. constructor; [assumption|right; split; [reflexivity|lia]]. Qed.

Lemma of_Z_ubound n M E :
  0 <= n < 2 ^ 53 -> bounded prec emax M E = true ->
  n * 2 ^ 1074 <= Zpos M * 2 ^ (E + 1074) ->
  ubound M E (of_Z n).
Proof.
  intros Hn HF Hv.
  destruct (Z.eq_dec n 0) as [->|Hne]; [constructor|].
  destruct (of_Z_exact n ltac:(lia)) as (m & e & -> & Hb & He & Hm).
  constructor; [assumption|].
  apply value_le_mag; try assumption.
  rewrite Hm. rewrite <- Z.mul_assoc, <- Z.pow_add_r by lia.
  replace (- e + (e + 1074)) with 1074 by lia. exact Hv.
Qed.

Lemma of_Z_nonneg n : 0 <= n -> nonneg (of_Z n).
Proof.
  intros Hn. destruct n as [|p|p]; try lia; [exact I|].
  apply shape_nonneg, bround_shape.
Qed.

Lemma ub2_weaken a b x : a <= b -> ub2 a x -> ub2 b x.
Proof.
  intros Hab. unfold ub2. apply ubound_weaken; [lia|].
  replace (b - 52 - (a - 52)) with (b - a) by lia.
  assert (0 < 2 ^ (b - a)) by (apply Z.pow_pos_nonneg; lia). nia.
Qed.

Lemma mul_ub2 a b x y :
  -1022 <= a <= 1023 -> -1022 <= b <= 1023 -> -1022 <= a + b <= 1023 ->
  ub2 a x -> ub2 b y -> ub2 (a + b) (mul x y).
Proof.
  intros Ha Hb Hab Hx Hy. unfold ub2 in *.
  apply (mul_ub x y 4503599627370496 (a - 52) 4503599627370496 (b - 52)); try apply bounded_pow2;
    try assumption; try lia.
  replace (a + b - 52 - (a - 52 + (b - 52))) with 52 by lia. reflexivity.
Qed.

Lemma pow2_sum a :
  -1074 <= a - 52 ->
  4503599627370496 * 2 ^ (a - 52 + 1074) + 4503599627370496 * 2 ^ (a - 52 + 1074)
  <= 4503599627370496 * 2 ^ (a + 1 - 52 + 1074).
Proof.
  intros Ha. replace (a + 1 - 52 + 1074) with (Z.succ (a - 52 + 1074)) by lia.
  rewrite Z.pow_succ_r by lia. lia.
Qed.

Lemma add_ub2 a x y :
  -1022 <= a -> a + 1 <= 1023 -> ub2 a x -> ub2 a y -> ub2 (a + 1) (add x y).
Proof.
  intros Ha Hb Hx Hy. unfold ub2 in *.
  apply (add_ub x y 4503599627370496 (a - 52) 4503599627370496 (a - 52)); try apply bounded_pow2;
    try assumption; try lia.
  apply pow2_sum. lia.
Qed.

Lemma sub_ub2 a x y :
  -1022 <= a -> a + 1 <= 1023 -> ub2 a x -> ub2 a y -> ub2 (a + 1) (sub x y).
Proof.
  intros Ha Hb Hx Hy. unfold ub2 in *.
  apply (sub_ub x y 4503599627370496 (a - 52) 4503599627370496 (a - 52)); try apply bounded_pow2;
    try assumption; try lia.
  apply pow2_sum. lia.
Qed.

Lemma pow2_nonneg a x : ub2 a x -> nonneg (pow2 x).
Proof.
  intros Hx. assert (H := mul_sign x x _ _ _ _ Hx Hx).
  rewrite xorb_nilpotent in H. apply shape_nonneg. exact H.
Qed.

Lemma mul_nonneg a b x y :
  ub2 a x -> ub2 b y -> nonneg x -> nonneg y -> nonneg (mul x y).
Proof.
  intros Hx Hy Hpx Hpy. assert (H := mul_sign x y _ _ _ _ Hx Hy).
  replace (sign_of x) with false in H
    by (destruct x as [[]|[]| |[] ? ?]; try contradiction; reflexivity).
  replace (sign_of y) with false in H
    by (destruct y as [[]|[]| |[] ? ?]; try contradiction; reflexivity).
  apply shape_nonneg. exact H.
Qed.

Lemma div_ub2_c113510 a x :
  -1022 <= a <= 1023 -> ub2 a x -> ub2 a (div x c113510).
Proof.
  intros Ha Hx. unfold ub2 in *.
  apply div_ub_ge1; try assumption; try reflexivity.
  - apply bounded_pow2. assumption.
  - vm_compute. discriminate.
Qed.

(** ** The color model converter *)

Lemma wrap32_range n : 0 <= wrap32 n < 2 ^ 32.
Proof. unfold wrap32. apply Z.mod_pos_bound. lia. Qed.

Lemma of_Z_ub2_32 n : 0 <= n < 2 ^ 32 -> ub2 32 (of_Z n).
Proof.
  intros Hn. unfold ub2. apply of_Z_ubound; [lia|reflexivity|].
  change (Zpos 4503599627370496 * 2 ^ (32 - 52 + 1074)) with (2 ^ 32 * 2 ^ 1074).
  apply Z.mul_le_mono_nonneg_r; [apply Z.pow_nonneg|]; lia.
Qed.

Lemma eqb_zero_of_Z a : 0 <= a < 2 ^ 53 -> eqb (of_Z a) zero = (a =? 0).
Proof.
  intros Ha. destruct (Z.eqb_spec a 0) as [->|Hne]; [reflexivity|].
  destruct (of_Z_exact a ltac:(lia)) as (m & e & -> & _). reflexivity.
Qed.

Lemma straight_channel v a :
  0 < a < 2 ^ 32 ->
  ub2 32 (div (of_Z (wrap32 v)) (of_Z a)) /\
  nonneg (div (of_Z (wrap32 v)) (of_Z a)).
Proof.
  intros Ha.
  assert (Hv := wrap32_range v).
  assert (Hx := of_Z_ub2_32 _ Hv).
  assert (Hp := of_Z_nonneg (wrap32 v) ltac:(lia)).
  destruct (of_Z_exact a ltac:(lia)) as (m & e & -> & Hb & He & Hm).
  split; [|apply div_nonneg; assumption].
  apply div_ub_ge1; try assumption; [reflexivity|].
  rewrite Hm, <- Z.mul_assoc, <- Z.pow_add_r by lia.
  replace (- e + (e + 1074)) with 1074 by lia.
  assert (0 < 2 ^ 1074) by (apply Z.pow_pos_nonneg; lia). nia.
Qed.

Lemma ub2_zero a : ub2 a zero.
Proof. constructor. Qed.

Lemma toNRGBA_bounds r g b a :
  0 <= a < 2 ^ 32 ->
  let '(r', g', b', a') := toNRGBA r g b a in
  (ub2 32 r' /\ nonneg r') /\ (ub2 32 g' /\ nonneg g') /\
  (ub2 32 b' /\ nonneg b') /\ a' = of_Z a.
Proof.
  intros Ha. unfold toNRGBA. rewrite eqb_zero_of_Z by lia.
  destruct (Z.eqb_spec a 0) as [->|Hne].
  - repeat split; try apply ub2_zero; exact I.
  - repeat split; try apply straight_channel; lia.
Qed.

(** ** The pixel distance is finite *)

Lemma ub2_const_lt m e a :
  bounded prec emax m e = true -> e < a - 52 -> ub2 a (S754_finite false m e).
Proof. intros Hb He. constructor; [assumption|left; assumption]. Qed.

Lemma euclid_bounds n a x b y c z :
  0 <= n <= 509 ->
  ub2 n a -> ub2 n x -> ub2 n b -> ub2 n y -> ub2 n c -> ub2 n z ->
  ub2 (n + 2) (euclideanDistance a x b y c z) /\
  nonneg (euclideanDistance a x b y c z).
Proof.
  intros Hn Ha Hx Hb Hy Hc Hz. unfold euclideanDistance.
  assert (Hsq : forall p q, ub2 n p -> ub2 n q ->
            ub2 (n + 1 + (n + 1)) (pow2 (sub p q)) /\ nonneg (pow2 (sub p q))).
  { intros p q Hp Hq.
    assert (Hs := sub_ub2 n p q ltac:(lia) ltac:(lia) Hp Hq).
    split; [|apply (pow2_nonneg (n + 1)); assumption].
    apply mul_ub2; try assumption; lia. }
  destruct (Hsq a x Ha Hx) as [H1 P1].
  destruct (Hsq b y Hb Hy) as [H2 P2].
  destruct (Hsq c z Hc Hz) as [H3 P3].
  assert (H12 := add_ub2 (n + 1 + (n + 1)) _ _ ltac:(lia) ltac:(lia) H1 H2).
  assert (H3' := ub2_weaken (n + 1 + (n + 1)) (n + 1 + (n + 1) + 1) _ ltac:(lia) H3).
  assert (H123 := add_ub2 (n + 1 + (n + 1) + 1) _ _ ltac:(lia) ltac:(lia) H12 H3').
  replace (n + 1 + (n + 1) + 1 + 1) with (2 * (n + 2)) in H123 by lia.
  assert (P123 : nonneg (add (add (pow2 (sub a x)) (pow2 (sub b y)))
                             (pow2 (sub c z))))
    by (repeat apply add_nonneg; assumption).
  split; [apply sqrt_ub2; try assumption; lia|apply sqrt_nonneg; assumption].
Qed.

Lemma toYUV_bounds r g b :
  ub2 32 r -> ub2 32 g -> ub2 32 b ->
  ub2 35 (fst (fst (toYUV r g b))) /\
  ub2 35 (snd (fst (toYUV r g b))) /\
  ub2 35 (snd (toYUV r g b)).
Proof.
  intros Hr Hg Hb. unfold toYUV. cbn [fst snd].
  assert (HWR : ub2 0 WR) by (apply ub2_const_lt; reflexivity).
  assert (HWG : ub2 0 WG) by (apply ub2_const_lt; reflexivity).
  assert (HWB : ub2 0 WB) by (apply ub2_const_lt; reflexivity).
  assert (Hu : ub2 0 c0492) by (apply ub2_const_lt; reflexivity).
  assert (Hv : ub2 0 c0877) by (apply ub2_const_lt; reflexivity).
  assert (H1 := mul_ub2 0 32 _ _ ltac:(lia) ltac:(lia) ltac:(lia) HWR Hr).
  assert (H2 := mul_ub2 0 32 _ _ ltac:(lia) ltac:(lia) ltac:(lia) HWG Hg).
  assert (H3 := mul_ub2 0 32 _ _ ltac:(lia) ltac:(lia) ltac:(lia) HWB Hb).
  simpl Z.add in H1, H2, H3.
  assert (H12 := add_ub2 32 _ _ ltac:(lia) ltac:(lia) H1 H2).
  assert (H3' := ub2_weaken 32 33 _ ltac:(lia) H3).
  assert (Hy := add_ub2 33 _ _ ltac:(lia) ltac:(lia) H12 H3').
  simpl Z.add in Hy.
  set (y_ := add (add (mul WR r) (mul WG g)) (mul WB b)) in *.
  assert (Hb' := ub2_weaken 32 34 _ ltac:(lia) Hb).
  assert (Hr' := ub2_weaken 32 34 _ ltac:(lia) Hr).
  assert (Hsb := sub_ub2 34 _ _ ltac:(lia) ltac:(lia) Hb' Hy).
  assert (Hsr := sub_ub2 34 _ _ ltac:(lia) ltac:(lia) Hr' Hy).
  simpl Z.add in Hsb, Hsr.
  split; [apply (ub2_weaken 34); [lia|assumption]|].
  split.
  - apply (mul_ub2 0 35); try assumption; lia.
  - apply (mul_ub2 0 35); try assumption; lia.
Qed.

Lemma pixelDistance_bounds cs r1 g1 b1 r2 g2 b2 :
  ub2 32 r1 -> ub2 32 g1 -> ub2 32 b1 ->
  ub2 32 r2 -> ub2 32 g2 -> ub2 32 b2 ->
  ub2 37 (pixelDistance cs r1 g1 b1 r2 g2 b2) /\
  nonneg (pixelDistance cs r1 g1 b1 r2 g2 b2).
Proof.
  intros Hr1 Hg1 Hb1 Hr2 Hg2 Hb2. unfold pixelDistance.
  destruct (String.eqb cs "RGB").
  - destruct (euclid_bounds 32 r1 r2 g1 g2 b1 b2) as [Hu Hp];
      try assumption; try lia.
    split.
    + apply (ub2_weaken 34); [lia|]. apply div_ub2_c113510; [lia|exact Hu].
    + apply (div_nonneg _ 7800347804303360 (-36)). exact Hp.
  - destruct (String.eqb cs "Y'UV"); [|split; [apply ub2_zero|exact I]].
    destruct (toYUV_bounds r1 g1 b1 Hr1 Hg1 Hb1) as (Hy1 & Hu1 & Hv1).
    destruct (toYUV_bounds r2 g2 b2 Hr2 Hg2 Hb2) as (Hy2 & Hu2 & Hv2).
    destruct (toYUV r1 g1 b1) as [[y_1 u1] v1].
    destruct (toYUV r2 g2 b2) as [[y_2 u2] v2].
    cbn [fst snd] in *.
    destruct (euclid_bounds 35 y_1 y_2 u1 u2 v1 v2) as [Hu Hp];
      try assumption; try lia.
    split.
    + apply div_ub2_c113510; [lia|exact Hu].
    + apply (div_nonneg _ 7800347804303360 (-36)). exact Hp.
Qed.

(** ** The alpha weight *)

Lemma leb_ltb_false x y : leb x y = true -> ltb y x = false.
Proof.
  unfold leb, ltb, SFleb, SFltb.
  destruct (SFcompare x y) as [c|] eqn:Hc; [|discriminate].
  rewrite (SFcompare_antisym _ _ _ Hc). destruct c; simpl; congruence.
Qed.

Lemma nonneg_ltb_zero x : nonneg x -> ltb x zero = false.
Proof. destruct x as [[]|[]| |[] m e]; try contradiction; reflexivity. Qed.

Lemma alpha_unit a :
  0 <= a <= 65535 ->
  ub2 0 (alphaOf (of_Z a)) /\ nonneg (alphaOf (of_Z a)).
Proof.
  intros Ha. unfold alphaOf.
  change c65535 with (S754_finite false 9007061815787520 (-37)).
  split; [|apply div_nonneg, of_Z_nonneg; lia].
  apply div_ub_self; [reflexivity|].
  apply of_Z_ubound; [lia|reflexivity|].
  change (Zpos 9007061815787520 * 2 ^ (-37 + 1074)) with (65535 * 2 ^ 1074).
  apply Z.mul_le_mono_nonneg_r; [apply Z.pow_nonneg|]; lia.
Qed.

Lemma alpha_no_panic a :
  0 <= a <= 65535 ->
  ltb (alphaOf (of_Z a)) zero || ltb one (alphaOf (of_Z a)) = false.
Proof.
  intros Ha. destruct (alpha_unit a Ha) as [Hu Hp].
  rewrite (nonneg_ltb_zero _ Hp). simpl.
  apply leb_ltb_false. apply (ubound_leb _ _ _ Hu).
Qed.

(** ** Loops *)

Lemma foldM_inv {A S : Type} (P : S -> Prop) (body : A -> S -> outcome S) l :
  (forall a acc acc', In a l -> P acc -> body a acc = Returned acc' -> P acc') ->
  forall acc r, P acc -> foldM body l acc = Returned r -> P r.
Proof.
  induction l as [|a l IH]; intros Hb acc r Hacc Hr; simpl in Hr.
  - inversion Hr. subst. exact Hacc.
  - destruct (body a acc) as [acc'|v] eqn:E; simpl in Hr; [|discriminate].
    apply (IH (fun a0 c c' Hin => Hb a0 c c' (or_intror Hin)) acc' r); [|exact Hr].
    apply (Hb a acc acc'); [left; reflexivity|exact Hacc|exact E].
Qed.

Lemma foldM_total {A S : Type} (P : S -> Prop) (body : A -> S -> outcome S) l :
  (forall a acc, In a l -> P acc -> exists acc', body a acc = Returned acc' /\ P acc') ->
  forall acc, P acc -> exists r, foldM body l acc = Returned r /\ P r.
Proof.
  induction l as [|a l IH]; intros Hb acc Hacc; simpl.
  - exists acc. split; [reflexivity|exact Hacc].
  - destruct (Hb a acc (or_introl eq_refl) Hacc) as (acc' & -> & Hacc').
    simpl. apply IH; [|exact Hacc'].
    intros a0 c Hin. apply Hb. right. exact Hin.
Qed.


Lemma zrange_from_In n : forall lo v,
  In v (zrange_from lo n) <-> lo <= v < lo + Z.of_nat n.
Proof.
  induction n as [|n IH]; intros lo v; simpl zrange_from.
  - simpl. lia.
  - simpl In. rewrite IH. lia.
Qed.

Lemma zrange_In lo hi v : In v (zrange lo hi) <-> lo <= v < hi.
Proof. unfold zrange. rewrite zrange_from_In. lia. Qed.

Lemma zrange_nil lo hi : hi <= lo -> zrange lo hi = [].
Proof.
  intros H. unfold zrange. replace (Z.to_nat (hi - lo)) with O by lia.
  reflexivity.
Qed.

(** ** One pixel *)

Lemma shape_valid sx x : shape sx x -> valid_binary prec emax x = true.
Proof. intros H; inversion H; subst; simpl; auto. Qed.

Lemma shape_not_nan sx x : shape sx x -> x <> S754_nan.
Proof. intros H; inversion H; subst; discriminate. Qed.

Lemma div_shape_nonneg x my ey :
  nonneg x -> shape false (div x (S754_finite false my ey)).
Proof.
  destruct x as [[]|[]| |[] mx ex]; try contradiction; intros _.
  - constructor.
  - constructor.
  - apply (div_shape false mx ex false my ey).
Qed.

Lemma alpha_shape a2 : nonneg a2 -> shape false (alphaOf a2).
Proof. apply div_shape_nonneg. Qed.

Lemma alpha_checked a2 :
  nonneg a2 -> ltb one (alphaOf a2) = false ->
  ub2 0 (alphaOf a2) /\ nonneg (alphaOf a2).
Proof.
  intros Hp Hc. assert (Hs := alpha_shape a2 Hp).
  split; [|apply shape_nonneg; exact Hs].
  apply (leb_ubound 4503599627370496 (-52)); [exact Hs|].
  apply (ltb_false_leb _ one); [apply (shape_not_nan _ _ Hs)|discriminate|exact Hc].
Qed.

Lemma weighted_nonneg d alpha :
  ub2 37 d -> nonneg d -> ub2 0 alpha -> nonneg alpha -> nonneg (mul d alpha).
Proof. intros. apply (mul_nonneg 37 0); assumption. Qed.

Lemma scanPixel_nonneg s baseImg refImg y x cul cul' :
  nonneg cul ->
  scanPixel s baseImg refImg y x cul = Returned cul' -> nonneg cul'.
Proof.
  intros Hcul. unfold scanPixel, toNRGBA_px.
  assert (H1 := toNRGBA_bounds (wrap32 (cr (i baseImg x y)))
     (wrap32 (cg (i baseImg x y))) (wrap32 (cb (i baseImg x y)))
     (wrap32 (ca (i baseImg x y))) (wrap32_range _)).
  assert (H2 := toNRGBA_bounds (wrap32 (cr (i refImg x y)))
     (wrap32 (cg (i refImg x y))) (wrap32 (cb (i refImg x y)))
     (wrap32 (ca (i refImg x y))) (wrap32_range _)).
  destruct (toNRGBA _ _ _ (wrap32 (ca (i baseImg x y)))) as [[[r1 g1] b1] a1].
  destruct (toNRGBA _ _ _ (wrap32 (ca (i refImg x y)))) as [[[r2 g2] b2] a2].
  destruct H1 as ((Hr1 & _) & (Hg1 & _) & (Hb1 & _) & _).
  destruct H2 as ((Hr2 & _) & (Hg2 & _) & (Hb2 & _) & Ha2).
  destruct (pixelDistance_bounds (ColorSpace s) r1 g1 b1 r2 g2 b2) as [Hd Hdp];
    try assumption.
  destruct (ltb (alphaOf a2) zero || ltb one (alphaOf a2)) eqn:Hc;
    intros H; inversion H; subst cul'.
  apply orb_false_iff in Hc. destruct Hc as [_ Hc].
  assert (Hpa : nonneg a2)
    by (rewrite Ha2; apply of_Z_nonneg; apply wrap32_range).
  destruct (alpha_checked a2 Hpa Hc) as [Hu Hp].
  apply add_nonneg; [exact Hcul|]. apply weighted_nonneg; assumption.
Qed.

Lemma scanPixel_returns s baseImg refImg y x cul :
  wrap32 (ca (i refImg x y)) <= 65535 ->
  exists cul', scanPixel s baseImg refImg y x cul = Returned cul'.
Proof.
  intros Ha. unfold scanPixel, toNRGBA_px.
  assert (H2 := toNRGBA_bounds (wrap32 (cr (i refImg x y)))
     (wrap32 (cg (i refImg x y))) (wrap32 (cb (i refImg x y)))
     (wrap32 (ca (i refImg x y))) (wrap32_range _)).
  destruct (toNRGBA _ _ _ (wrap32 (ca (i baseImg x y)))) as [[[r1 g1] b1] a1].
  destruct (toNRGBA _ _ _ (wrap32 (ca (i refImg x y)))) as [[[r2 g2] b2] a2].
  destruct H2 as (_ & _ & _ & Ha2). subst a2.
  rewrite alpha_no_panic by (assert (H := wrap32_range (ca (i refImg x y))); lia).
  eexists. reflexivity.
Qed.

Lemma nonneg_mul_zero d : ub2 37 d -> nonneg d -> mul d zero = zero.
Proof.
  intros Hu Hp.
  destruct d as [[]|[]| |[] m e]; try contradiction; try (inversion Hu; fail);
    reflexivity.
Qed.

Lemma scanPixel_transparent s baseImg refImg y x :
  wrap32 (ca (i refImg x y)) = 0 ->
  scanPixel s baseImg refImg y x zero = Returned zero.
Proof.
  intros Ha. unfold scanPixel, toNRGBA_px. rewrite Ha.
  assert (H1 := toNRGBA_bounds (wrap32 (cr (i baseImg x y)))
     (wrap32 (cg (i baseImg x y))) (wrap32 (cb (i baseImg x y)))
     (wrap32 (ca (i baseImg x y))) (wrap32_range _)).
  destruct (toNRGBA _ _ _ (wrap32 (ca (i baseImg x y)))) as [[[r1 g1] b1] a1].
  destruct H1 as ((Hr1 & _) & (Hg1 & _) & (Hb1 & _) & _).
  change (toNRGBA (wrap32 (cr (i refImg x y))) (wrap32 (cg (i refImg x y)))
            (wrap32 (cb (i refImg x y))) 0) with (zero, zero, zero, zero).
  cbv iota beta.
  change (alphaOf zero) with zero.
  change (ltb zero zero || ltb one zero) with false. cbv iota.
  destruct (pixelDistance_bounds (ColorSpace s) r1 g1 b1 zero zero zero)
    as [Hd Hdp]; try assumption; try apply ub2_zero.
  rewrite (nonneg_mul_zero _ Hd Hdp). reflexivity.
Qed.

(** ** The whole scan *)

Lemma scan_nonneg s baseImg refImg yOffset yCount cul :
  scan s baseImg refImg yOffset yCount = Returned cul -> nonneg cul.
Proof.
  unfold scan. apply (foldM_inv nonneg); [|exact I].
  intros y acc acc' _ Hacc. unfold scanRow. apply (foldM_inv nonneg); [|exact Hacc].
  intros x c c' _ Hc. apply scanPixel_nonneg. exact Hc.
Qed.

Lemma scan_returns s baseImg refImg yOffset yCount :
  (forall x y, 0 <= x < w baseImg ->
               yOffset <= y < wrap64 (yOffset + yCount) ->
               wrap32 (ca (i refImg x y)) <= 65535) ->
  exists cul, scan s baseImg refImg yOffset yCount = Returned cul.
Proof.
  intros Ha. unfold scan.
  destruct (foldM_total (fun _ => True) (scanRow s baseImg refImg)
              (zrange yOffset (wrap64 (yOffset + yCount)))) with (acc := zero)
    as (r & Hr & _); [|exact I|exists r; exact Hr].
  intros y acc Hy _. unfold scanRow.
  apply (foldM_total (fun _ => True)); [|exact I].
  intros x c Hx _.
  destruct (scanPixel_returns s baseImg refImg y x c) as (c' & Hc').
  - apply Ha; apply zrange_In; assumption.
  - exists c'. split; [exact Hc'|exact I].
Qed.

Lemma scan_transparent s baseImg refImg yOffset yCount :
  (forall x y, 0 <= x < w baseImg ->
               yOffset <= y < wrap64 (yOffset + yCount) ->
               wrap32 (ca (i refImg x y)) = 0) ->
  scan s baseImg refImg yOffset yCount = Returned zero.
Proof.
  intros Ha. unfold scan.
  destruct (foldM_total (fun c => c = zero) (scanRow s baseImg refImg)
              (zrange yOffset (wrap64 (yOffset + yCount)))) with (acc := zero)
    as (r & Hr & ->); [|reflexivity|exact Hr].
  intros y acc Hy ->. unfold scanRow.
  apply (foldM_total (fun c => c = zero)); [|reflexivity].
  intros x c Hx ->. exists zero. split; [|reflexivity].
  apply scanPixel_transparent. apply Ha; apply zrange_In; assumption.
Qed.

(** ** The score aggregator *)

Lemma div_valid x y : valid_binary prec emax (div x y) = true.
Proof.
  destruct x as [sx|sx| |sx mx ex]; destruct y as [sy|sy| |sy my ey];
    try reflexivity.
  apply (shape_valid (xorb sx sy)). apply div_shape.
Qed.

Lemma mul_valid x y :
  valid_binary prec emax x = true -> valid_binary prec emax y = true ->
  valid_binary prec emax (mul x y) = true.
Proof.
  destruct x as [sx|sx| |sx mx ex]; destruct y as [sy|sy| |sy my ey];
    try reflexivity.
  intros Hx Hy.
  change (bounded prec emax mx ex = true) in Hx.
  change (bounded prec emax my ey = true) in Hy.
  apply (shape_valid (xorb sx sy)). unfold mul, SFmul.
  apply bra_valid_sign; [lia|]. apply mul_enough; assumption.
Qed.

Lemma aggregate_valid cul n :
  valid_binary prec emax (aggregate cul n c1_25) = true.
Proof.
  unfold aggregate.
  destruct (ltb one (mul (div cul (of_Z n)) c1_25)); [reflexivity|].
  apply mul_valid; [apply div_valid|reflexivity].
Qed.

Lemma count_finite n :
  0 < n < 2 ^ 63 ->
  exists m e, of_Z n = S754_finite false m e /\ bounded prec emax m e = true.
Proof.
  intros Hn. apply (of_Z_pos_finite n 4503599627370496 11); [reflexivity|lia|].
  change (Zpos 4503599627370496 * 2 ^ 11) with (2 ^ 63). lia.
Qed.

Lemma mean_shape cul n :
  nonneg cul -> 0 < n < 2 ^ 63 ->
  shape false (mul (div cul (of_Z n)) c1_25).
Proof.
  intros Hc Hn. destruct (count_finite n Hn) as (m & e & -> & Hb).
  assert (Hs := div_shape_nonneg cul m e Hc).
  inversion Hs as [Hq|mq eq Hbq Hq|Hq].
  - constructor.
  - apply (mul_sign (S754_finite false mq eq) c1_25 mq eq 5629499534213120 (-52)).
    + apply ubound_refl. exact Hbq.
    + apply ubound_refl. reflexivity.
  - constructor.
Qed.

Lemma aggregate_unit cul n :
  nonneg cul -> 0 < n < 2 ^ 63 ->
  shape false (aggregate cul n c1_25) /\ ub2 0 (aggregate cul n c1_25).
Proof.
  intros Hc Hn. assert (Hs := mean_shape cul n Hc Hn).
  unfold aggregate.
  destruct (ltb one (mul (div cul (of_Z n)) c1_25)) eqn:Hl.
  - split; [constructor; reflexivity|].
    apply ubound_refl. reflexivity.
  - split; [exact Hs|].
    apply (leb_ubound 4503599627370496 (-52)); [exact Hs|].
    apply (ltb_false_leb _ one);
      [apply (shape_not_nan _ _ Hs)|discriminate|exact Hl].
Qed.

Lemma aggregate_zero n : 0 < n < 2 ^ 63 -> aggregate zero n c1_25 = zero.
Proof.
  intros Hn. destruct (count_finite n Hn) as (m & e & Hq & _).
  unfold aggregate. rewrite Hq. reflexivity.
Qed.

(** ** The presentation transform *)

Lemma sub_zero_r x : sub x zero = x.
Proof. destruct x as [[]|[]| |[] m e]; reflexivity. Qed.

Lemma div_one_exact x : valid_binary prec emax x = true -> div x one = x.
Proof.
  destruct x as [[]|[]| |s m e]; try reflexivity.
  simpl valid_binary. intros Hb.
  destruct (bounded_facts m e Hb) as (He & Hd & Hm & _).
  apply bounded_iff in Hb. destruct Hb as [Hc _].
  unfold div, one, SFdiv.
  destruct (div_core_spec m e 4503599627370496 (-52))
    as (q & e' & l & -> & He1 & He2 & He3 & Hq & Hl & H0 & Hk).
  change (Zdigits2 (Zpos 4503599627370496)) with 53 in He2.
  assert (He'e : e' <= e).
  { assert (Hfe : fx (Zdigits2 (Zpos m) + e - (53 + -52))
                   <= fx (Zdigits2 (Zpos m) + e)) by (apply fx_mono; lia).
    rewrite Hc in Hfe. lia. }
  assert (Hs : e - -52 - e' = 52 + (e - e')) by lia.
  rewrite Hs in *.
  assert (Hp : 0 < 2 ^ (e - e')) by (apply Z.pow_pos_nonneg; lia).
  assert (Hnum : Zpos m * 2 ^ (52 + (e - e')) = Zpos m * 2 ^ (e - e') * 2 ^ 52).
  { rewrite Z.pow_add_r by lia. ring. }
  rewrite Hnum in *.
  change (Zpos 4503599627370496) with (2 ^ 52) in *.
  rewrite Z.div_mul in Hq by lia.
  assert (Hex : l = loc_Exact) by (apply Hl; apply Z.mod_mul; lia).
  subst l q.
  assert (Hdq : Zdigits2 (Zpos m * 2 ^ (e - e')) + e' = Zdigits2 (Zpos m) + e)
    by (rewrite Zdigits2_mul_pow2 by lia; lia).
  destruct (bra_shape (xorb s false) (Zpos m * 2 ^ (e - e')) e' loc_Exact
              ltac:(lia) Hk) as (m2 & m3 & e3 & _ & Hx & H3 & _ & ->).
  rewrite Hdq, Hc in *.
  rewrite xorb_false_r.
  assert (Hm2 : m2 = Zpos m).
  { rewrite Hx; [apply Z.div_mul; lia|reflexivity|apply Z.mod_mul; lia]. }
  destruct H3 as [(-> & -> & _)|(E2 & _ & _)]; [|lia].
  rewrite Hm2. simpl result_of.
  destruct (Z.leb_spec e 971); [reflexivity|lia].
Qed.

Lemma percentOf_mul diff :
  valid_binary prec emax (score diff) = true ->
  minValue diff = zero -> maxValue diff = one ->
  percentOf diff = mul hundred (score diff).
Proof.
  intros Hv Hmin Hmax. unfold percentOf. rewrite Hmin, Hmax, !sub_zero_r.
  apply div_one_exact. apply mul_valid; [reflexivity|exact Hv].
Qed.

Lemma percent_bounds sc :
  shape false sc -> ub2 0 sc ->
  nonneg (mul hundred sc) /\ ubound 7036874417766400 (-46) (mul hundred sc).
Proof.
  intros Hs Hu. split.
  - assert (H := mul_sign hundred sc 7036874417766400 (-46) _ _
                   (ubound_refl false 7036874417766400 (-46) eq_refl) Hu).
    replace (sign_of sc) with false in H by (inversion Hs; reflexivity).
    apply shape_nonneg. exact H.
  - apply (mul_ub hundred sc 7036874417766400 (-46) 4503599627370496 (-52));
      try reflexivity; try assumption; try lia.
    apply (ubound_refl false 7036874417766400 (-46)). reflexivity.
Qed.

(** * The claims *)

(** ** Color model converter *)

(** C7: for alpha 0, [toNRGBA] returns (0, 0, 0, 0) whatever the other
    channels are, taking the branch without a division, so that no
    component is NaN; for alpha above 0 and channel values as
    [RGBA()] yields them, it returns the quotients [r*0xFFFF / a],
    [g*0xFFFF / a], [b*0xFFFF / a] and the alpha itself, none of them
    NaN. *)
Theorem toNRGBA_spec :
  (forall r g b, toNRGBA r g b 0 = (zero, zero, zero, zero)) /\
  (forall r g b a,
     0 <= r <= 65535 -> 0 <= g <= 65535 -> 0 <= b <= 65535 ->
     0 < a <= 65535 ->
     toNRGBA r g b a =
       (div (of_Z (r * 65535)) (of_Z a),
        div (of_Z (g * 65535)) (of_Z a),
        div (of_Z (b * 65535)) (of_Z a),
        of_Z a) /\
     is_nan (div (of_Z (r * 65535)) (of_Z a)) = false /\
     is_nan (div (of_Z (g * 65535)) (of_Z a)) = false /\
     is_nan (div (of_Z (b * 65535)) (of_Z a)) = false /\
     is_nan (of_Z a) = false).
Proof.
  split; [reflexivity|].
  intros r g b a Hr Hg Hb Ha.
  assert (Hw : forall v, 0 <= v <= 65535 -> wrap32 (v * 65535) = v * 65535).
  { intros v Hv. unfold wrap32. apply Z.mod_small. lia. }
  assert (Hnan : forall x, nonneg x -> is_nan x = false).
  { intros x. destruct x as [[]|[]| |[] m e]; try contradiction; reflexivity. }
  split.
  - unfold toNRGBA. rewrite eqb_zero_of_Z by lia.
    destruct (Z.eqb_spec a 0) as [->|_]; [lia|].
    rewrite !Hw by assumption. reflexivity.
  - assert (Hc : forall v, 0 <= v <= 65535 ->
              is_nan (div (of_Z (v * 65535)) (of_Z a)) = false).
    { intros v Hv. rewrite <- (Hw v Hv). apply Hnan.
      apply straight_channel. lia. }
    repeat split; try (apply Hc; assumption).
    apply Hnan, of_Z_nonneg. lia.
Qed.

Lemma toNRGBA_spec_witness :
  toNRGBA 32768 0 0 32768 =
    (div (of_Z (32768 * 65535)) (of_Z 32768),
     div (of_Z (0 * 65535)) (of_Z 32768),
     div (of_Z (0 * 65535)) (of_Z 32768),
     of_Z 32768).
Proof.
  destruct toNRGBA_spec as [_ H].
  destruct (H 32768 0 0 32768) as [E _]; try lia. exact E.
Defined.

(** ** Pixel distance *)

(** C6: in either colour space the per-pixel distance is the Euclidean
    distance over the three components divided by 113510.0; in Y'UV
    mode the components are the BT.601 transform of the straight RGB
    values, and the divisor is the same. *)
Theorem pixelDistance_spec :
  (forall r1 g1 b1 r2 g2 b2,
     pixelDistance "RGB" r1 g1 b1 r2 g2 b2 =
       div (euclid3 (r1, g1, b1) (r2, g2, b2)) (of_Z 113510)) /\
  (forall r1 g1 b1 r2 g2 b2,
     pixelDistance "Y'UV" r1 g1 b1 r2 g2 b2 =
       div (euclid3 (bt601 (r1, g1, b1)) (bt601 (r2, g2, b2))) (of_Z 113510)) /\
  (forall r g b, toYUV r g b = bt601 (r, g, b)).
Proof. repeat split. Qed.

(** ** Image scanner *)

Lemma wrap32_small v : 0 <= v < 2 ^ 32 -> wrap32 v = v.
Proof. intros H. unfold wrap32. apply Z.mod_small. exact H. Qed.


Lemma wrap64_small n : - 2 ^ 63 <= n < 2 ^ 63 -> wrap64 n = n.
Proof. intros H. unfold wrap64. rewrite Z.mod_small by lia. lia. Qed.

Lemma nonneg_between_unit x :
  nonneg x -> ub2 0 x -> between zero one x = true.
Proof.
  intros Hp Hu. unfold between.
  rewrite (nonneg_leb_zero _ Hp). apply (ubound_leb _ _ _ Hu).
Qed.

(** C10: when the alpha values that [RGBA()] yields for the reference
    image lie in [[0, 65535]], the alpha fraction [a2 / 65535] of every
    pixel lies in [[0, 1]], and [compareImages] returns: the panic that
    guards the fraction is not reached. *)
Theorem alpha_fraction_in_unit_interval :
  forall s baseImg refImg yOffset yCount,
    (forall x y, 0 <= ca (i refImg x y) <= 65535) ->
    (forall x y,
       between zero one
         (alphaOf (snd (toNRGBA_px (i refImg x y)))) = true) /\
    exists diff,
      compareImages s baseImg refImg yOffset yCount = Returned diff.
Proof.
  intros s baseImg refImg yOffset yCount Ha. split.
  - intros x y. unfold toNRGBA_px.
    assert (H := toNRGBA_bounds (wrap32 (cr (i refImg x y)))
       (wrap32 (cg (i refImg x y))) (wrap32 (cb (i refImg x y)))
       (wrap32 (ca (i refImg x y))) (wrap32_range _)).
    destruct (toNRGBA _ _ _ _) as [[[r2 g2] b2] a2].
    destruct H as (_ & _ & _ & ->). cbn [snd].
    rewrite wrap32_small by (specialize (Ha x y); lia).
    destruct (alpha_unit (ca (i refImg x y)) (Ha x y)) as [Hu Hp].
    apply nonneg_between_unit; assumption.
  - destruct (scan_returns s baseImg refImg yOffset yCount) as (cul & Hc).
    + intros x y _ _. rewrite wrap32_small by (specialize (Ha x y); lia).
      apply Ha.
    + unfold compareImages. rewrite Hc. simpl. eexists. reflexivity.
Qed.

Lemma alpha_fraction_in_unit_interval_witness :
  exists diff,
    compareImages (settingsFor "RGB" 0) (solid black 2 2) (solid white 2 2) 0 2
      = Returned diff.
Proof.
  apply (alpha_fraction_in_unit_interval (settingsFor "RGB" 0)
           (solid black 2 2) (solid white 2 2) 0 2).
  intros x y. simpl. lia.
Defined.




(** A reference image that is transparent everywhere masks every
    difference, provided there is at least one pixel to average over. *)
Lemma transparent_reference_scores_zero :
  forall s baseImg refImg yOffset yCount diff,
    0 < yCount * w baseImg < 2 ^ 63 ->
    (forall x y, ca (i refImg x y) = 0) ->
    compareImages s baseImg refImg yOffset yCount = Returned diff ->
    score diff = zero.
Proof.
  intros s baseImg refImg yOffset yCount diff Hn Ha.
  unfold compareImages. rewrite scan_transparent.
  - simpl. intros H. inversion H. subst diff. simpl.
    rewrite wrap64_small by lia. apply aggregate_zero. exact Hn.
  - intros x y _ _. rewrite Ha. reflexivity.
Qed.

(** C4, at two images without pixels: the reference image is
    transparent everywhere, and the score is NaN, not 0.0. *)
Theorem transparent_reference_without_pixels :
  CompareImages (twoFiles (solidFile white 0 0) (solidFile clear 0 0))
                (settingsFor "RGB" 0)
    = Returned (S754_nan, None) /\
  eqb S754_nan zero = false.
Proof. split; reflexivity. Qed.

(** ** Score aggregator *)

(** Whenever at least one pixel is averaged over, the score lies in
    [[0.0, 1.0]], the percentage in [[0, 100]], and the exit code is an
    integer from 0 to 100. *)
Lemma score_in_unit_interval :
  forall s baseImg refImg yOffset yCount diff,
    0 < yCount * w baseImg < 2 ^ 63 ->
    compareImages s baseImg refImg yOffset yCount = Returned diff ->
    between zero one (score diff) = true /\
    between zero hundred (percentOf diff) = true /\
    exists n, exitCodeOf diff = Some n /\ 0 <= n <= 100.
Proof.
  intros s baseImg refImg yOffset yCount diff Hn.
  unfold compareImages.
  destruct (scan s baseImg refImg yOffset yCount) as [cul|v] eqn:Hscan;
    simpl; intros H; inversion H; subst diff; clear H.
  assert (Hc := scan_nonneg _ _ _ _ _ _ Hscan).
  rewrite wrap64_small by lia.
  destruct (aggregate_unit cul (yCount * w baseImg) Hc Hn) as [Hs Hu].
  unfold exitCodeOf.
  rewrite percentOf_mul by (try reflexivity; apply aggregate_valid).
  simpl score.
  destruct (percent_bounds _ Hs Hu) as [Hpp Hpu].
  split; [apply nonneg_between_unit; [apply shape_nonneg|]; assumption|].
  split.
  - unfold between. rewrite (nonneg_leb_zero _ Hpp).
    apply (ubound_leb _ _ _ Hpu).
  - destruct (to_int_ub100 _ Hpp Hpu) as (n & Hi & _ & Hr).
    exists n. split; assumption.
Qed.

(** C1, at two images without pixels: the score that [CompareImages]
    returns is NaN, which is outside [[0.0, 1.0]], and the exit code
    that [main] derives from it is left to the platform. *)
Theorem score_of_images_without_pixels :
  CompareImages (twoFiles (solidFile black 0 0) (solidFile white 0 0))
                (settingsFor "RGB" 0)
    = Returned (S754_nan, None) /\
  between zero one S754_nan = false /\
  (exists d,
     workerVerdict (twoFiles (solidFile black 0 0) (solidFile white 0 0))
                   (settingsFor "RGB" 0) = inr d /\
     is_nan (percentOf d) = true /\ exitCodeOf d = None).
Proof.
  split; [reflexivity|]. split; [reflexivity|].
  eexists. split; [reflexivity|]. split; reflexivity.
Qed.



(** ** Duration specifiers *)













(** ** Dimension check *)




(** ** Timeout *)

Lemma workerVerdict_never_times_out fs s v c :
  workerVerdict fs s = inl (v, c) -> v <> TimedOut /\ v <> Completed.
Proof.
  unfold workerVerdict.
  destruct (readImageMetadata fs (BaseImg s)) as [e1|b];
    [intros H; inversion H; split; discriminate|].
  destruct (readImageMetadata fs (RefImg s)) as [e2|r];
    [intros H; inversion H; split; discriminate|].
  destruct (negb (w b =? w r) || negb (h b =? h r));
    [intros H; inversion H; split; discriminate|].
  destruct (compareImages s b r 0 (h b));
    intros H; inversion H; split; discriminate.
Qed.

Lemma zero_timeout_invariant fs s :
  Timeout s = 0 ->
  forall p, reachable fs s p ->
    (forall b, In b (p_chan p) -> b = true) /\
    (p_exit p = None ->
       (p_worker p = WSent -> p_chan p = [true]) /\
       (p_worker p <> WSent -> p_chan p = [])) /\
    (p_worker p <> WRunning -> workerVerdict fs s = inr (p_diff p)) /\
    (forall v c, p_exit p = Some (v, c) ->
       (v = Completed /\ p_worker p = WSent /\ c = exitCodeOf (p_diff p)) \/
       (exists k, workerVerdict fs s = inl (v, k) /\ c = Some k)).
Proof.
  intros Ht p Hp. induction Hp as [|p q Hp IH Hstep].
  - split; [intros b []|]. split.
    + intros _. split; [discriminate|reflexivity].
    + split; [intros H; contradiction H; reflexivity|discriminate].
  - destruct IH as (Hch & Hc & Hd & He).
    inversion Hstep; subst; cbn [p_worker p_diff p_chan p_exit exited].
    + lia.
    + split; [exact Hch|]. split; [intros _; apply Hc; assumption|].
      split; [exact Hd|discriminate].
    + split; [exact Hch|]. split; [discriminate|]. split; [exact Hd|].
      intros v0 c0 E. inversion E; subst. right. exists c.
      split; [assumption|reflexivity].
    + assert (Hnil : p_chan p = []).
      { apply Hc; [assumption|].
        match goal with E : p_worker p = WRunning |- _ => rewrite E end.
        discriminate. }
      split; [exact Hch|]. split.
      * intros _. split; [discriminate|intros _; exact Hnil].
      * split; [intros _; assumption|discriminate].
    + assert (Hnil : p_chan p = []).
      { apply Hc; [assumption|].
        match goal with E : p_worker p = WScanned |- _ => rewrite E end.
        discriminate. }
      rewrite Hnil. split; [intros b [<-|[]]; reflexivity|]. split.
      * intros _. split; [reflexivity|intros Hne; contradiction Hne; reflexivity].
      * split; [|discriminate]. intros _. apply Hd.
        match goal with E : p_worker p = WScanned |- _ => rewrite E end.
        discriminate.
    + match goal with E : p_chan p = true :: _ |- _ => rename E into Echan end.
      assert (Hs : p_worker p = WSent).
      { destruct (p_worker p) eqn:Ew; try reflexivity;
          destruct (Hc ltac:(assumption)) as [_ Hn];
          rewrite Hn in Echan by discriminate; discriminate. }
      split; [intros b Hin; apply Hch; rewrite Echan; right; exact Hin|].
      split; [discriminate|]. split; [exact Hd|].
      intros v c E. inversion E; subst. left. repeat split. exact Hs.
    + exfalso.
      match goal with E : p_chan p = false :: _ |- _ =>
        assert (E' : false = true) by (apply Hch; rewrite E; left; reflexivity)
      end.
      discriminate.
Qed.

(** C2: with a timeout of exactly zero the timer goroutine never sends:
    the channel only ever holds the worker's [true], no run ends by the
    timer or with its exit code, a run that has not exited can always
    go on, and when the scan completes the run ends with the result,
    which is reached. *)
Theorem zero_timeout_is_unbounded :
  forall fs s,
    Timeout s = 0 ->
    (forall p, reachable fs s p ->
       (forall b, In b (p_chan p) -> b = true) /\
       (forall c, p_exit p <> Some (TimedOut, c)) /\
       (p_exit p = None -> exists q, step fs s p q)) /\
    (forall d, workerVerdict fs s = inr d ->
       (forall p v c, reachable fs s p -> p_exit p = Some (v, c) ->
          v = Completed /\ c = exitCodeOf d) /\
       (exists p, reachable fs s p /\
                  p_exit p = Some (Completed, exitCodeOf d))).
Proof.
  intros fs s Ht. split.
  - intros p Hp.
    destruct (zero_timeout_invariant fs s Ht p Hp) as (Hch & Hc & Hd & He).
    split; [exact Hch|]. split.
    + intros c E. destruct (He _ _ E) as [(Hv & _)|(k & Hk & _)]; [discriminate|].
      destruct (workerVerdict_never_times_out _ _ _ _ Hk) as [Hn _].
      apply Hn. reflexivity.
    + intros Hex. destruct (Hc Hex) as [Hs Hn].
      destruct (p_worker p) eqn:Ew.
      * destruct (workerVerdict fs s) as [[v k]|d] eqn:Ev.
        -- eexists. apply (step_worker_exit fs s p v k); assumption.
        -- eexists. apply (step_worker_scan fs s p d); assumption.
      * eexists. apply (step_worker_send fs s p); try assumption.
        rewrite Hn by discriminate. unfold chanCap. simpl. lia.
      * eexists. apply (step_main_result fs s p []); [assumption|].
        apply Hs. reflexivity.
  - intros d Hv. split.
    + intros p v c Hp E.
      destruct (zero_timeout_invariant fs s Ht p Hp) as (_ & _ & Hd & He).
      destruct (He _ _ E) as [(-> & Hs & ->)|(k & Hk & _)].
      * split; [reflexivity|].
        assert (Hq : workerVerdict fs s = inr (p_diff p))
          by (apply Hd; rewrite Hs; discriminate).
        rewrite Hv in Hq. inversion Hq. reflexivity.
      * rewrite Hv in Hk. discriminate.
    + eexists. split.
      * eapply reach_step; [eapply reach_step; [eapply reach_step;
          [apply reach_initial|]|]|].
        -- apply (step_worker_scan fs s initial d); [reflexivity|reflexivity|exact Hv].
        -- apply step_worker_send; [reflexivity|reflexivity|].
           unfold chanCap. simpl. lia.
        -- apply (step_main_result fs s _ []); reflexivity.
      * reflexivity.
Qed.

Lemma zero_timeout_is_unbounded_witness :
  exists q,
    step (twoFiles (solidFile black 2 2) (solidFile white 2 2))
         (settingsFor "RGB" 0) initial q.
Proof.
  destruct (zero_timeout_is_unbounded
              (twoFiles (solidFile black 2 2) (solidFile white 2 2))
              (settingsFor "RGB" 0) eq_refl) as [H _].
  destruct (H initial (reach_initial _ _)) as (_ & _ & Hstep).
  apply Hstep. reflexivity.
Defined.
